(** * Loop fusion pass: legality analysis and driver

    A shallow embedding of the loop-fusion pass (the [LoopFusionPass]
    translation unit): the memory-operation collector, the induction
    extractor, the candidate builder, the legality checker, the greedy
    same-depth driver and the order of the mutator calls of the transform.

    LLVM objects are modelled by what the pass observes of them:
    - a [Value*] is compared by address; constants are uniqued by LLVM, so
      the address of a constant is determined by its type and payload,
      while instructions, arguments and the like carry a number;
    - a nullable pointer is an [option];
    - a basic block is a handle, and the procedure maps it to the ordered
      list of its instructions;
    - a loop is the record of the answers of the loop queries the pass
      makes ([getBlocks], [getLoopPreheader], ...). *)

From stdpp Require Import base decidable countable gmap list strings.

Open Scope string_scope.

(** ** Values *)

Inductive fltSemantics := IEEEhalf | BFloat | IEEEsingle | IEEEdouble | IEEEquad | x87DoubleExtended.

Inductive Ty :=
  | IntegerTy (bits : N)
  | FPTy (sem : fltSemantics)
  | PointerTy
  | OtherTy (id : positive).

(** A constant is a [ConstantInt] (an [APInt] of the width of its type), a
    [ConstantFP] (an [APFloat], kept as its bit pattern) or any other
    constant (null, undef, a global, a constant expression). *)
Inductive Constant :=
  | ConstantInt (bits : N) (getValue : N)
  | ConstantFP (sem : fltSemantics) (getValueAPF : N)
  | ConstantOther (ty : Ty) (id : positive).

Inductive Value :=
  | VConstant (c : Constant)
  | VInst (id : positive)
  | VArgument (id : positive).

Definition getType (c : Constant) : Ty :=
  match c with
  | ConstantInt bits _ => IntegerTy bits
  | ConstantFP sem _ => FPTy sem
  | ConstantOther ty _ => ty
  end.

#[global] Instance fltSemantics_eq_dec : EqDecision fltSemantics.
Proof. solve_decision. Defined.
#[global] Instance Ty_eq_dec : EqDecision Ty.
Proof. solve_decision. Defined.
#[global] Instance Constant_eq_dec : EqDecision Constant.
Proof. solve_decision. Defined.
#[global] Instance Value_eq_dec : EqDecision Value.
Proof. solve_decision. Defined.

(** Keys of the variable map are values: a countable encoding. *)
Definition fltSemantics_code (s : fltSemantics) : nat :=
  match s with
  | IEEEhalf => 0 | BFloat => 1 | IEEEsingle => 2
  | IEEEdouble => 3 | IEEEquad => 4 | x87DoubleExtended => 5
  end.

Definition fltSemantics_of_code (n : nat) : fltSemantics :=
  match n with
  | 0 => IEEEhalf | 1 => BFloat | 2 => IEEEsingle
  | 3 => IEEEdouble | 4 => IEEEquad | _ => x87DoubleExtended
  end.

#[global] Instance fltSemantics_countable : Countable fltSemantics.
Proof. by apply (inj_countable' fltSemantics_code fltSemantics_of_code); intros []. Defined.

Definition Ty_code (t : Ty) : N + (fltSemantics + (unit + positive)) :=
  match t with
  | IntegerTy b => inl b
  | FPTy s => inr (inl s)
  | PointerTy => inr (inr (inl ()))
  | OtherTy i => inr (inr (inr i))
  end.

Definition Ty_of_code (c : N + (fltSemantics + (unit + positive))) : Ty :=
  match c with
  | inl b => IntegerTy b
  | inr (inl s) => FPTy s
  | inr (inr (inl _)) => PointerTy
  | inr (inr (inr i)) => OtherTy i
  end.

#[global] Instance Ty_countable : Countable Ty.
Proof. by apply (inj_countable' Ty_code Ty_of_code); intros []. Defined.

Definition Constant_code (c : Constant) : N * N + (fltSemantics * N + Ty * positive) :=
  match c with
  | ConstantInt b v => inl (b, v)
  | ConstantFP s v => inr (inl (s, v))
  | ConstantOther t i => inr (inr (t, i))
  end.

Definition Constant_of_code (c : N * N + (fltSemantics * N + Ty * positive)) : Constant :=
  match c with
  | inl (b, v) => ConstantInt b v
  | inr (inl (s, v)) => ConstantFP s v
  | inr (inr (t, i)) => ConstantOther t i
  end.

#[global] Instance Constant_countable : Countable Constant.
Proof. by apply (inj_countable' Constant_code Constant_of_code); intros []. Defined.

Definition Value_code (v : Value) : Constant + (positive + positive) :=
  match v with
  | VConstant c => inl c
  | VInst i => inr (inl i)
  | VArgument i => inr (inr i)
  end.

Definition Value_of_code (c : Constant + (positive + positive)) : Value :=
  match c with
  | inl k => VConstant k
  | inr (inl i) => VInst i
  | inr (inr i) => VArgument i
  end.

#[global] Instance Value_countable : Countable Value.
Proof. by apply (inj_countable' Value_code Value_of_code); intros []. Defined.

(** [dyn_cast<Constant>] and [dyn_cast<ConstantInt>] on an operand. *)
Definition dyn_cast_Constant (v : Value) : option Constant :=
  match v with
  | VConstant c => Some c
  | _ => None
  end.

Definition dyn_cast_ConstantInt (v : Value) : option Constant :=
  match v with
  | VConstant (ConstantInt b n) => Some (ConstantInt b n)
  | _ => None
  end.

(** ** Instructions, blocks, loops *)

Inductive BinaryOps :=
  | Add | FAdd | Sub | FSub | Mul | FMul | UDiv | SDiv | FDiv
  | URem | SRem | FRem | Shl | LShr | AShr | And | Or | Xor.

#[global] Instance BinaryOps_eq_dec : EqDecision BinaryOps.
Proof. solve_decision. Defined.

(** An instruction, by the classes the pass tests with [isa<>]; the fields
    are the operands in LLVM's order ([getOperand(0)], [getOperand(1)]).
    [self] numbers the result of the instruction ([VInst self]). *)
Inductive Instruction :=
  | LoadInst (self : positive) (ptr : Value) (volatile : bool)
  | StoreInst (val ptr : Value) (volatile : bool)
  | GetElementPtrInst (self : positive) (base : Value) (indices : list Value)
  | ICmpInst (self : positive) (lhs rhs : Value)
  | BinaryOperator (self : positive) (opcode : BinaryOps) (lhs rhs : Value)
  | OtherInst (self : positive) (throws : bool).

Definition mayThrow (i : Instruction) : bool :=
  match i with
  | OtherInst _ t => t
  | _ => false
  end.

Definition BasicBlock := positive.
Definition LoopId := positive.

(** The answers of the loop queries of the pass; a null answer is [None]. *)
Record Loop := {
  loop_id : LoopId;
  getBlocks : list BasicBlock;
  getLoopPreheader : option BasicBlock;
  getUniqueExitBlock : option BasicBlock;
  isAnnotatedParallel : bool;
  getHeader : option BasicBlock;
  getLoopLatch : option BasicBlock;
  getExitingBlock : option BasicBlock
}.

Record LoopInduction := {
  induction_variable : option Value;
  start_const : option Constant;
  start_variable : option Value;
  stop_const : option Constant;
  stop_variable : option Value;
  advance_const : option Constant;
  advance_variable : option Value;
  advance_op : BinaryOps
}.

Record FusionCandidate := {
  loop : Loop;
  preheader : option BasicBlock;
  header : option BasicBlock;
  pre_exit : option BasicBlock;
  exit : option BasicBlock;
  latch : option BasicBlock;
  induction : LoopInduction;
  writes : list Value;
  reads : list Value
}.

(** Field assignments. *)
Definition set_loop (l : Loop) (c : FusionCandidate) : FusionCandidate :=
  {| loop := l; preheader := preheader c; header := header c; pre_exit := pre_exit c;
     exit := exit c; latch := latch c; induction := induction c;
     writes := writes c; reads := reads c |}.

Definition set_preheader_exit (p e : option BasicBlock) (c : FusionCandidate) : FusionCandidate :=
  {| loop := loop c; preheader := p; header := header c; pre_exit := pre_exit c;
     exit := e; latch := latch c; induction := induction c;
     writes := writes c; reads := reads c |}.

Definition set_header_latch_pre_exit (h l x : option BasicBlock) (c : FusionCandidate)
  : FusionCandidate :=
  {| loop := loop c; preheader := preheader c; header := h; pre_exit := x;
     exit := exit c; latch := l; induction := induction c;
     writes := writes c; reads := reads c |}.

Definition set_induction (i : LoopInduction) (c : FusionCandidate) : FusionCandidate :=
  {| loop := loop c; preheader := preheader c; header := header c; pre_exit := pre_exit c;
     exit := exit c; latch := latch c; induction := i;
     writes := writes c; reads := reads c |}.

Definition push_write (v : Value) (c : FusionCandidate) : FusionCandidate :=
  {| loop := loop c; preheader := preheader c; header := header c; pre_exit := pre_exit c;
     exit := exit c; latch := latch c; induction := induction c;
     writes := writes c ++ [v]; reads := reads c |}.

Definition push_read (v : Value) (c : FusionCandidate) : FusionCandidate :=
  {| loop := loop c; preheader := preheader c; header := header c; pre_exit := pre_exit c;
     exit := exit c; latch := latch c; induction := induction c;
     writes := writes c; reads := reads c ++ [v] |}.

(** A pointer used as a condition. *)
Definition non_null {A} (p : option A) : bool :=
  match p with
  | Some _ => true
  | None => false
  end.

(** The instruction lists of the procedure's blocks. [insts_of F p] is
    [*p]; the pass only dereferences block pointers it has checked. *)
Definition Body := BasicBlock -> list Instruction.

Definition insts_of (F : Body) (p : option BasicBlock) : list Instruction :=
  match p with
  | Some b => F b
  | None => []
  end.

(** A failure is the line written to [dbgs()]. *)
Definition Result (A : Type) : Type := string + A.

Definition succeeded {A} (r : Result A) : bool :=
  match r with
  | inr _ => true
  | inl _ => false
  end.

(** ** Memory operation collector *)

Definition is_loop_body (candidate : FusionCandidate) (BB : BasicBlock) : bool :=
  bool_decide (Some BB <> header candidate)
  && bool_decide (Some BB <> latch candidate)
  && bool_decide (Some BB <> pre_exit candidate).

(** The three locals of [get_loop_memops]. [gep_operand] is declared
    without an initialiser. *)
Record MemopsLocals := {
  gep_operand : Value;
  seen_gep : bool;
  header_seen_load : bool
}.

Definition memops_header_instr (st : MemopsLocals * FusionCandidate) (instr : Instruction)
  : MemopsLocals * FusionCandidate :=
  let '(lc, candidate) := st in
  match instr with
  | LoadInst _ op0 _ =>
      if negb (header_seen_load lc) then
        ({| gep_operand := gep_operand lc; seen_gep := seen_gep lc; header_seen_load := true |},
         push_write op0 candidate)
      else (lc, push_read op0 candidate)
  | _ => st
  end.

Definition memops_body_instr (st : MemopsLocals * FusionCandidate) (instr : Instruction)
  : MemopsLocals * FusionCandidate :=
  let '(lc, candidate) := st in
  match instr with
  | LoadInst _ op0 _ =>
      if seen_gep lc then
        ({| gep_operand := gep_operand lc; seen_gep := false;
            header_seen_load := header_seen_load lc |},
         push_read (gep_operand lc) candidate)
      else (lc, push_read op0 candidate)
  | StoreInst _ op1 _ =>
      if seen_gep lc then
        ({| gep_operand := gep_operand lc; seen_gep := false;
            header_seen_load := header_seen_load lc |},
         push_write (gep_operand lc) candidate)
      else (lc, push_write op1 candidate)
  | GetElementPtrInst _ op0 _ =>
      ({| gep_operand := op0; seen_gep := true; header_seen_load := header_seen_load lc |},
       candidate)
  | _ => st
  end.

Definition memops_block (F : Body) (st : MemopsLocals * FusionCandidate) (BB : BasicBlock)
  : MemopsLocals * FusionCandidate :=
  if bool_decide (Some BB = header (snd st)) then
    fold_left memops_header_instr (F BB) st
  else if is_loop_body (snd st) BB then
    fold_left memops_body_instr (F BB) st
  else st.

(** [indeterminate] is the content of [gep_operand] at its declaration. *)
Definition get_loop_memops (F : Body) (indeterminate : Value) (candidate : FusionCandidate)
  : FusionCandidate :=
  snd (fold_left (memops_block F) (getBlocks (loop candidate))
         ({| gep_operand := indeterminate; seen_gep := false; header_seen_load := false |},
          candidate)).

(** ** Induction variable extractor *)

(** The variable map ([DenseMap<Value *, Value *>]); a key that is absent
    reads as null. *)
Abbreviation VarMap := (gmap Value Value).

(** Locals of the header scan: [induction_variable], [stop_const],
    [stop_variable]. *)
Definition induction_header_instr (variables : VarMap)
    (st : option Value * option Constant * option Value) (instr : Instruction)
  : option Value * option Constant * option Value :=
  let '(iv, stop_c, stop_v) := st in
  match instr with
  | ICmpInst _ _ op1 =>
      match dyn_cast_Constant op1 with
      | Some C => (iv, Some C, stop_v)
      | None => (iv, stop_c, variables !! op1)
      end
  | LoadInst _ op0 _ =>
      match iv with
      | None => (Some op0, stop_c, stop_v)
      | Some _ => st
      end
  | _ => st
  end.

Definition is_store_to (target : option Value) (instr : Instruction) : bool :=
  match instr with
  | StoreInst _ op1 _ => bool_decide (Some op1 = target)
  | _ => false
  end.

(** The flag [induction_variable_is_stored] after the scan of the loop's
    blocks. *)
Definition induction_variable_is_stored (F : Body) (candidate : FusionCandidate)
    (iv : option Value) : bool :=
  existsb (fun BB => is_loop_body candidate BB && existsb (is_store_to iv) (F BB))
          (getBlocks (loop candidate)).

(** Locals of the preheader scan: [start_const], [start_variable]. *)
Definition induction_preheader_instr (variables : VarMap)
    (st : option Constant * option Value) (instr : Instruction)
  : option Constant * option Value :=
  let '(start_c, start_v) := st in
  match instr with
  | StoreInst op0 _ _ =>
      match dyn_cast_ConstantInt op0 with
      | Some C => (Some C, start_v)
      | None => (start_c, variables !! op0)
      end
  | _ => st
  end.

(** Locals of the latch scan: [advance_const], [advance_variable],
    [advance_op]. *)
Definition induction_latch_instr (variables : VarMap)
    (st : option Constant * option Value * BinaryOps) (instr : Instruction)
  : option Constant * option Value * BinaryOps :=
  let '(adv_c, adv_v, _) := st in
  match instr with
  | BinaryOperator _ opc _ op1 =>
      match dyn_cast_ConstantInt op1 with
      | Some C => (Some C, adv_v, opc)
      | None => (adv_c, variables !! op1, opc)
      end
  | _ => st
  end.

(** [indeterminate_op] is the content of [advance_op] at its declaration. *)
Definition get_loop_induction (F : Body) (indeterminate_op : BinaryOps)
    (candidate : FusionCandidate) (variables : VarMap) : Result FusionCandidate :=
  let '(iv, stop_c, stop_v) :=
    fold_left (induction_header_instr variables) (insts_of F (header candidate))
              (None, None, None) in
  if negb (non_null iv) then
    inl "Loop does not have an induction variable."
  else if negb (non_null stop_c) && negb (non_null stop_v) then
    inl "Loop stop is not a constant or a variable."
  else if negb (induction_variable_is_stored F candidate iv) then
    inl "Loop induction variable is not used."
  else
    let '(start_c, start_v) :=
      fold_left (induction_preheader_instr variables) (insts_of F (preheader candidate))
                (None, None) in
    if negb (non_null start_c) && negb (non_null start_v) then
      inl "Loop start is not a constant or a variable."
    else
      let '(adv_c, adv_v, adv_op) :=
        fold_left (induction_latch_instr variables) (insts_of F (latch candidate))
                  (None, None, indeterminate_op) in
      if negb (non_null adv_c) && negb (non_null adv_v) then
        inl "Loop advance is not a constant or a variable."
      else
        inr (set_induction
               {| induction_variable := iv;
                  start_const := start_c; start_variable := start_v;
                  stop_const := stop_c; stop_variable := stop_v;
                  advance_const := adv_c; advance_variable := adv_v;
                  advance_op := adv_op |}
               candidate).

(** ** Fusion candidate builder *)

Definition is_volatile_access (i : Instruction) : bool :=
  match i with
  | StoreInst _ _ v => v
  | LoadInst _ _ v => v
  | _ => false
  end.

(** The first scan of [create_fusion_candidate]: the diagnostic of the
    first offending instruction, if any. *)
Fixpoint check_instructions (l : list Instruction) : option string :=
  match l with
  | [] => None
  | Inst :: rest =>
      if mayThrow Inst then Some "Loop contains instruction that may throw exception."
      else if is_volatile_access Inst then Some "Loop contains volatile memory access."
      else check_instructions rest
  end.

Fixpoint check_blocks (F : Body) (bbs : list BasicBlock) : option string :=
  match bbs with
  | [] => None
  | BB :: rest =>
      match check_instructions (F BB) with
      | Some d => Some d
      | None => check_blocks F rest
      end
  end.

(** [candidate] is the caller's record, whose pointer fields are not
    initialised; on failure the caller drops it. *)
Definition create_fusion_candidate (F : Body) (indeterminate : Value)
    (indeterminate_op : BinaryOps) (candidate : FusionCandidate) (l : Loop)
    (variables : VarMap) : Result FusionCandidate :=
  match check_blocks F (getBlocks l) with
  | Some d => inl d
  | None =>
      let candidate := set_preheader_exit (getLoopPreheader l) (getUniqueExitBlock l) candidate in
      if negb (non_null (preheader candidate))
         || negb (non_null (exit candidate)) then
        inl "Loop does not have single entry or exit point."
      else if isAnnotatedParallel l then
        inl "Loop is annotated parallel."
      else
        let candidate :=
          set_header_latch_pre_exit (getHeader l) (getLoopLatch l) (getExitingBlock l)
                                    candidate in
        if negb (non_null (header candidate))
           || negb (non_null (latch candidate))
           || negb (non_null (pre_exit candidate)) then
          inl "Necessary loop information is not available(preheader, header, latch, pre exit, exit block)."
        else
          let candidate := set_loop l candidate in
          let candidate := get_loop_memops F indeterminate candidate in
          get_loop_induction F indeterminate_op candidate variables
  end.

(** ** Fusion legality checker *)

Definition adjacent (c1 c2 : FusionCandidate) : bool :=
  bool_decide (exit c1 = preheader c2).

Definition are_constants_equal (LHS RHS : option Constant) : bool :=
  match LHS, RHS with
  | None, None => true
  | None, Some _ | Some _, None => false
  | Some L, Some R =>
      if bool_decide (getType L <> getType R) then false
      else
        match L with
        | ConstantInt _ lv =>
            match R with
            | ConstantInt _ rv => bool_decide (lv = rv)
            | _ => false
            end
        | ConstantFP _ lv =>
            match R with
            | ConstantFP _ rv => bool_decide (lv = rv)
            | _ => false
            end
        | ConstantOther _ _ => false
        end
  end.

(** One of the three blocks of [same_loop_evolution]: [None] when the
    block falls through, the line written otherwise. *)
Definition evolution_check (k1 k2 : option Constant) (v1 v2 : option Value)
    (not_equal not_same_kinds : string) : option string :=
  if non_null k1 && non_null k2 then
    if negb (are_constants_equal k1 k2) then Some not_equal else None
  else if non_null v1 && non_null v2 then
    if bool_decide (v1 <> v2) then Some not_equal else None
  else Some not_same_kinds.

Definition same_loop_evolution (c1 c2 : FusionCandidate) : Result unit :=
  let i1 := induction c1 in
  let i2 := induction c2 in
  match evolution_check (stop_const i1) (stop_const i2) (stop_variable i1) (stop_variable i2)
          "Loop stops are not equal" "Loop stops are not the same kinds of values" with
  | Some d => inl d
  | None =>
  match evolution_check (advance_const i1) (advance_const i2)
          (advance_variable i1) (advance_variable i2)
          "Loop advances are not equal" "Loop advances are not the same kinds of values" with
  | Some d => inl d
  | None =>
  if bool_decide (advance_op i1 <> advance_op i2) then
    inl "Loop advance operations are not the same"
  else
  match evolution_check (start_const i1) (start_const i2) (start_variable i1) (start_variable i2)
          "Loop advances are not equal" "Loop starts are not the same kinds of values" with
  | Some d => inl d
  | None => inr ()
  end end end.

Definition dependent (c1 c2 : FusionCandidate) : bool :=
  existsb (fun v1 =>
             existsb (fun v2 => bool_decide (v1 = v2)) (reads c2)
             || existsb (fun v2 => bool_decide (v1 = v2)) (writes c2))
          (writes c1)
  || existsb (fun v1 => existsb (fun v2 => bool_decide (v1 = v2)) (reads c1)) (writes c2).

Definition can_be_fused (c1 c2 : FusionCandidate) : bool :=
  succeeded (same_loop_evolution c1 c2) && negb (dependent c1 c2) && adjacent c1 c2.

(** [map_variables]: every load of the procedure maps its result to its
    address operand. *)
Definition map_variables_instr (variables : VarMap) (instr : Instruction) : VarMap :=
  match instr with
  | LoadInst self op0 _ => <[VInst self := op0]> variables
  | _ => variables
  end.

Definition map_variables (F : Body) (blocks : list BasicBlock) (variables : VarMap) : VarMap :=
  fold_left (fun m BB => fold_left map_variables_instr (F BB) m) blocks variables.

(** ** The LLVM side of the transform and of the driver *)

(** The mutators the pass calls, with their arguments. *)
Inductive Call :=
  | moveInstructionsToTheEnd (from to : option BasicBlock)
  | moveInstructionsToTheBeginning (from to : option BasicBlock)
  | Terminator_replaceUsesOfWith (block : option BasicBlock) (from to : option BasicBlock)
  | Terminator_eraseFromParent (block : option BasicBlock)
  | new_UnreachableInst (at_end_of : option BasicBlock)
  | DT_recalculate
  | PDT_recalculate
  | LA_removeBlock (BB : option BasicBlock)
  | MergeBlockIntoPredecessor (BB : option BasicBlock)
  | addBlockEntry (l : LoopId) (BB : BasicBlock)
  | removeBlockFromLoop (l : LoopId) (BB : BasicBlock)
  | LA_changeLoopFor (BB : BasicBlock) (l : LoopId)
  | EliminateUnreachableBlocks
  | LA_erase (l : LoopId).

#[global] Instance Call_eq_dec : EqDecision Call.
Proof. solve_decision. Defined.

(** What a run leaves behind, in order: the mutator calls, the lines
    written to [dbgs()], and a mark each time [create_fusion_candidate]
    is entered for a loop. *)
Inductive Event :=
  | Mutate (c : Call)
  | Dbgs (line : string)
  | Create (l : LoopId).

(** The procedure and its analyses are a state [IR] that only LLVM
    changes; the pass reads it through the queries below. *)
Record LLVM (IR : Type) := {
  apply_call : Call -> IR -> IR;
  body : IR -> Body;
  func_blocks : IR -> list BasicBlock;
  loop_info : IR -> LoopId -> Loop;
  getLoopFor : IR -> BasicBlock -> option LoopId;
  getUniqueSuccessor : IR -> option BasicBlock -> option BasicBlock
}.
Arguments apply_call {IR}.
Arguments body {IR}.
Arguments func_blocks {IR}.
Arguments loop_info {IR}.
Arguments getLoopFor {IR}.
Arguments getUniqueSuccessor {IR}.

(** State and output monad of the stateful code. *)
Definition M (IR A : Type) : Type := IR -> A * IR * list Event.

Definition ret {IR A} (a : A) : M IR A := fun s => (a, s, []).

Definition bind {IR A B} (m : M IR A) (k : A -> M IR B) : M IR B :=
  fun s =>
    let '(a, s1, l1) := m s in
    let '(b, s2, l2) := k a s1 in
    (b, s2, (l1 ++ l2)%list).

Declare Scope pass_scope.
Delimit Scope pass_scope with pass.
Notation "x <- m ;; k" := (bind m (fun x => k))
  (at level 100, m at next level, k at level 200, only parsing) : pass_scope.
Notation "m ;; k" := (bind m (fun _ => k))
  (at level 100, k at level 200, only parsing) : pass_scope.

Definition emit {IR} (e : Event) : M IR unit := fun s => (tt, s, [e]).

Definition query {IR A} (q : IR -> A) : M IR A := fun s => (q s, s, []).

Definition events {IR A} (r : A * IR * list Event) : list Event := snd r.
Definition final_state {IR A} (r : A * IR * list Event) : IR := snd (fst r).
Definition returned {IR A} (r : A * IR * list Event) : A := fst (fst r).

Fixpoint for_each {IR A} (l : list A) (f : A -> M IR unit) : M IR unit :=
  match l with
  | [] => ret tt
  | x :: rest => (f x ;; for_each rest f)%pass
  end.

(** The mutator calls among the events of a run. *)
Definition call_of (e : Event) : option Call :=
  match e with
  | Mutate c => Some c
  | _ => None
  end.

Definition calls (t : list Event) : list Call := omap call_of t.

Definition created_of (e : Event) : option LoopId :=
  match e with
  | Create l => Some l
  | _ => None
  end.

Definition created (t : list Event) : list LoopId := omap created_of t.

(** Values that the source leaves uninitialised at their declaration. *)
Record Indeterminate := {
  junk_value : Value;
  junk_op : BinaryOps;
  junk_candidate : FusionCandidate
}.

(** A default-constructed [FusionCandidate]: empty arrays, the other
    fields not initialised. *)
Definition declared (junk : FusionCandidate) : FusionCandidate :=
  {| loop := loop junk; preheader := preheader junk; header := header junk;
     pre_exit := pre_exit junk; exit := exit junk; latch := latch junk;
     induction := induction junk; writes := []; reads := [] |}.

(** The loop-nest tree as the driver walks it: each loop with its
    sub-loops, siblings in the order of the container. *)
#[warnings="-register-all"]
Inductive LoopNest :=
  | Nest (nest_loop : LoopId) (getSubLoops : list LoopNest).

Section Pass.
Context {IR : Type} (llvm : LLVM IR).
Variable junk : Indeterminate.

Definition call (c : Call) : M IR unit :=
  fun s => (tt, apply_call llvm c s, [Mutate c]).

(** *** Loop fusion transformer *)

Definition reparent_block (c1 c2 : FusionCandidate) (BB : BasicBlock) : M IR unit :=
  (call (addBlockEntry (loop_id (loop c1)) BB) ;;
   call (removeBlockFromLoop (loop_id (loop c2)) BB) ;;
   owner <- query (fun s => getLoopFor llvm s BB) ;;
   if bool_decide (owner <> Some (loop_id (loop c2))) then ret tt
   else call (LA_changeLoopFor BB (loop_id (loop c1))))%pass.

Definition fuse_with_first (c1 c2 : FusionCandidate) : M IR unit :=
  (call (moveInstructionsToTheEnd (preheader c2) (preheader c1)) ;;

   call (Terminator_replaceUsesOfWith (pre_exit c1) (preheader c2) (exit c2)) ;;
   call (Terminator_eraseFromParent (preheader c2)) ;;
   call (new_UnreachableInst (preheader c2)) ;;

   call (Terminator_replaceUsesOfWith (latch c1) (header c1) (header c2)) ;;
   call (Terminator_replaceUsesOfWith (latch c2) (header c2) (header c1)) ;;

   call DT_recalculate ;;
   call PDT_recalculate ;;

   call (LA_removeBlock (preheader c2)) ;;

   call DT_recalculate ;;
   call PDT_recalculate ;;

   call (moveInstructionsToTheBeginning (latch c1) (latch c2)) ;;
   successor <- query (fun s => getUniqueSuccessor llvm s (latch c1)) ;;
   call (MergeBlockIntoPredecessor successor) ;;

   call DT_recalculate ;;
   call PDT_recalculate ;;

   Blocks <- query (fun s => getBlocks (loop_info llvm s (loop_id (loop c2)))) ;;
   for_each Blocks (reparent_block c1 c2) ;;

   call EliminateUnreachableBlocks ;;
   call (LA_erase (loop_id (loop c2))) ;;

   emit (Dbgs "Fused"))%pass.

(** *** Same-depth recursive driver *)

(** The locals [collector_has_data] and [collector]. *)
Definition Collector : Type := bool * FusionCandidate.

(** [can_be_fused] with the line [same_loop_evolution] writes when it
    rejects. *)
Definition can_be_fused_dbgs (c1 c2 : FusionCandidate) : M IR bool :=
  match same_loop_evolution c1 c2 with
  | inl d => (emit (Dbgs d) ;; ret (can_be_fused c1 c2))%pass
  | inr _ => ret (can_be_fused c1 c2)
  end.

(** The body of the [for] after the recursive call. *)
Definition visit_loop (variables : VarMap) (l : LoopId) (st : Collector) : M IR Collector :=
  let '(collector_has_data, collector) := st in
  (emit (Create l) ;;
   built <- query (fun s =>
              create_fusion_candidate (body llvm s) (junk_value junk) (junk_op junk)
                (declared (junk_candidate junk)) (loop_info llvm s l) variables) ;;
   match built with
   | inl d => emit (Dbgs d) ;; ret (collector_has_data, collector)
   | inr current =>
       emit (Dbgs "Have a candidate") ;;
       fusible <- (if collector_has_data then can_be_fused_dbgs collector current
                   else ret false) ;;
       if fusible then fuse_with_first collector current ;; ret (true, collector)
       else ret (true, current)
   end)%pass.

Fixpoint visit_nest (variables : VarMap) (n : LoopNest) (st : Collector) : M IR Collector :=
  match n with
  | Nest l subloops =>
      (_ <- (fix siblings (loops : list LoopNest) (st' : Collector) : M IR Collector :=
               match loops with
               | [] => ret st'
               | n' :: rest => st'' <- visit_nest variables n' st' ;; siblings rest st''
               end) subloops (false, declared (junk_candidate junk)) ;;
       visit_loop variables l st)%pass
  end.

(** The [for] over the container, from the given locals; returns the
    locals at its end. *)
Fixpoint visit_siblings (variables : VarMap) (loops : list LoopNest) (st : Collector)
  : M IR Collector :=
  match loops with
  | [] => ret st
  | n :: rest => (st' <- visit_nest variables n st ;; visit_siblings variables rest st')%pass
  end.

Definition fuse_same_depth_loops_recursive (variables : VarMap) (loops : list LoopNest)
  : M IR unit :=
  (_ <- visit_siblings variables loops (false, declared (junk_candidate junk)) ;; ret tt)%pass.

(** [run] after the analyses are fetched: [variables] is the member of
    the pass object, as the earlier runs left it. *)
Definition run (variables : VarMap) (top_level : list LoopNest) : M IR unit :=
  (F <- query (body llvm) ;;
   blocks <- query (func_blocks llvm) ;;
   fuse_same_depth_loops_recursive (map_variables F blocks variables) top_level)%pass.

End Pass.

(** * Vocabulary of the statements *)

(** What [are_constants_equal] accepts on two non-null constants: the
    same integer width and value, or the same floating-point semantics
    and bit pattern. *)
Inductive same_bit_pattern : Constant -> Constant -> Prop :=
  | same_int bits v : same_bit_pattern (ConstantInt bits v) (ConstantInt bits v)
  | same_fp sem v : same_bit_pattern (ConstantFP sem v) (ConstantFP sem v).

(** One field of the descriptors agrees: two constants of the same bit
    pattern, or two references to the same variable. *)
Definition field_agrees (k1 k2 : option Constant) (v1 v2 : option Value) : Prop :=
  (exists a b, k1 = Some a /\ k2 = Some b /\ same_bit_pattern a b)
  \/ (exists a, v1 = Some a /\ v2 = Some a).


(** ** The collector as the specification words it

    Header: the first load encountered goes to the write-set, every later
    header load to the read-set. Body blocks (neither header, latch nor
    pre-exit): one pending address-computation slot; an address
    computation fills it with its base operand, overwriting what it held;
    a load puts the slot's value, or else its own address operand, in the
    read-set and empties the slot; a store does the same into the
    write-set. The result is the pair (write-set, read-set), in order of
    classification. *)

Definition load_address (instr : Instruction) : option Value :=
  match instr with
  | LoadInst _ addr _ => Some addr
  | _ => None
  end.

Definition spec_header (seen : bool) (l : list Instruction) : list Value * list Value :=
  let loads := omap load_address l in
  if seen then ([], loads) else (take 1 loads, drop 1 loads).

Fixpoint spec_body (slot : option Value) (l : list Instruction)
  : option Value * (list Value * list Value) :=
  match l with
  | [] => (slot, ([], []))
  | GetElementPtrInst _ base _ :: rest => spec_body (Some base) rest
  | LoadInst _ addr _ :: rest =>
      let '(s, (w, r)) := spec_body None rest in (s, (w, default addr slot :: r))
  | StoreInst _ addr _ :: rest =>
      let '(s, (w, r)) := spec_body None rest in (s, (default addr slot :: w, r))
  | _ :: rest => spec_body slot rest
  end.

Fixpoint spec_blocks (F : Body) (h lt pe : option BasicBlock) (slot : option Value)
    (seen : bool) (blocks : list BasicBlock) : list Value * list Value :=
  match blocks with
  | [] => ([], [])
  | BB :: rest =>
      if bool_decide (Some BB = h) then
        let '(w, r) := spec_header seen (F BB) in
        let '(W, R) :=
          spec_blocks F h lt pe slot (seen || non_null (head (omap load_address (F BB)))) rest in
        (w ++ W, r ++ R)%list
      else if bool_decide (Some BB <> lt /\ Some BB <> pe) then
        let '(slot', (w, r)) := spec_body slot (F BB) in
        let '(W, R) := spec_blocks F h lt pe slot' seen rest in
        (w ++ W, r ++ R)%list
      else spec_blocks F h lt pe slot seen rest
  end.

Definition spec_footprint (F : Body) (c : FusionCandidate) : list Value * list Value :=
  spec_blocks F (header c) (latch c) (pre_exit c) None false (getBlocks (loop c)).

(** Appending to both arrays of a candidate. *)
Definition extend (w r : list Value) (c : FusionCandidate) : FusionCandidate :=
  {| loop := loop c; preheader := preheader c; header := header c; pre_exit := pre_exit c;
     exit := exit c; latch := latch c; induction := induction c;
     writes := writes c ++ w; reads := reads c ++ r |}.

(** The pending slot held by the locals of [get_loop_memops]. *)
Definition slot_of (lc : MemopsLocals) : option Value :=
  if seen_gep lc then Some (gep_operand lc) else None.

(** ** Vocabulary of the extractor and builder statements *)

(** [v] is the target of a store in a body block of the candidate's loop
    (a block of the loop other than header, latch and pre-exit). *)
Definition stored_in_body (F : Body) (c : FusionCandidate) (v : Value) : Prop :=
  exists BB val vol,
    BB ∈ getBlocks (loop c) /\ is_loop_body c BB = true /\ StoreInst val v vol ∈ F BB.

(** The first load of a block that occurs before any comparison of the
    block, as the specification words the choice of the handle. *)
Fixpoint first_load_before_comparison (l : list Instruction) : option Value :=
  match l with
  | [] => None
  | LoadInst _ addr _ :: _ => Some addr
  | ICmpInst _ _ _ :: _ => None
  | _ :: rest => first_load_before_comparison rest
  end.

(** The last store of a block and the last binary operation of a block. *)
Definition is_store (instr : Instruction) : bool :=
  match instr with
  | StoreInst _ _ _ => true
  | _ => false
  end.

Definition is_binary_operator (instr : Instruction) : bool :=
  match instr with
  | BinaryOperator _ _ _ _ => true
  | _ => false
  end.

Definition last_store (l : list Instruction) : option Instruction :=
  last (List.filter is_store l).

Definition last_binary_operator (l : list Instruction) : option Instruction :=
  last (List.filter is_binary_operator l).

(** The five blocks of a candidate are pairwise distinct. *)
Definition five_distinct (c : FusionCandidate) : Prop :=
  NoDup [preheader c; header c; latch c; pre_exit c; exit c].

(** ** Vocabulary of the transform and driver statements *)

(** Calls that change the edges or the set of blocks of the procedure. *)
Definition is_cfg_edit (c : Call) : bool :=
  match c with
  | Terminator_replaceUsesOfWith _ _ _ | Terminator_eraseFromParent _
  | new_UnreachableInst _ | MergeBlockIntoPredecessor _ | EliminateUnreachableBlocks => true
  | _ => false
  end.

Definition is_recalculate (c : Call) : bool :=
  match c with
  | DT_recalculate | PDT_recalculate => true
  | _ => false
  end.

(** [one_at_a_time dirty t]: along [t], no edit of the CFG is made while
    an earlier one still waits for the recomputation of dominance and
    post-dominance; [dirty] tells whether one waits at the start. *)
Fixpoint one_at_a_time (dirty : bool) (t : list Call) : bool :=
  match t with
  | [] => true
  | DT_recalculate :: PDT_recalculate :: rest => one_at_a_time false rest
  | c :: rest =>
      if is_cfg_edit c then negb dirty && one_at_a_time true rest
      else one_at_a_time dirty rest
  end.

(** Along [t], every recomputation of dominance is at once followed by
    the recomputation of post-dominance, which occurs nowhere else. *)
Fixpoint recalculations_paired (t : list Call) : bool :=
  match t with
  | [] => true
  | DT_recalculate :: PDT_recalculate :: rest => recalculations_paired rest
  | c :: rest => negb (is_recalculate c) && recalculations_paired rest
  end.

(** The calls of the transform up to the re-parenting of the blocks;
    [successor] is the unique successor of [c1]'s latch when the merge is
    called. *)
Definition transform_prefix (c1 c2 : FusionCandidate) (successor : option BasicBlock)
  : list Call :=
  [ moveInstructionsToTheEnd (preheader c2) (preheader c1);
    Terminator_replaceUsesOfWith (pre_exit c1) (preheader c2) (exit c2);
    Terminator_eraseFromParent (preheader c2);
    new_UnreachableInst (preheader c2);
    Terminator_replaceUsesOfWith (latch c1) (header c1) (header c2);
    Terminator_replaceUsesOfWith (latch c2) (header c2) (header c1);
    DT_recalculate; PDT_recalculate;
    LA_removeBlock (preheader c2);
    DT_recalculate; PDT_recalculate;
    moveInstructionsToTheBeginning (latch c1) (latch c2);
    MergeBlockIntoPredecessor successor;
    DT_recalculate; PDT_recalculate ].

(** Children before their parent, siblings in the order of the
    container. *)
Fixpoint postorder (n : LoopNest) : list LoopId :=
  match n with
  | Nest l subloops => flat_map postorder subloops ++ [l]
  end.

(** The candidate the driver builds for loop [l] in state [s]. *)
Definition build_at {IR} (llvm : LLVM IR) (junk : Indeterminate) (variables : VarMap)
    (s : IR) (l : LoopId) : Result FusionCandidate :=
  create_fusion_candidate (body llvm s) (junk_value junk) (junk_op junk)
    (declared (junk_candidate junk)) (loop_info llvm s l) variables.

(** * A procedure to run the pass on

    Counted loops in a row, in the shape of [doit1] of
    [tests/loop_fusion_int_mult.c]; each body also stores its counter.
    Blocks: 1 entry, 2-4 first loop (condition, body, increment), 5 the
    block between the loops, 6-8 second loop, 9 the block after it,
    10-12 a third loop that stops at [0xFF], 13 the end.
    [VInst 101 .. 108] are the stack slots of the variables. *)
Module Doit.
#[local] Open Scope positive_scope.

Definition x : Value := VInst 101.
Definition y : Value := VInst 102.
Definition i : Value := VInst 103.
Definition j : Value := VInst 104.
Definition k : Value := VInst 107.
Definition z : Value := VInst 108.
Definition i32 (n : N) : Value := VConstant (ConstantInt 32 n).

Definition entry : list Instruction :=
  [ StoreInst (i32 1%N) x false; StoreInst (i32 1%N) y false; StoreInst (i32 1%N) i false;
    OtherInst 1 false ].

Definition loop_cond (counter : Value) (base : positive) (stop : N) : list Instruction :=
  [ LoadInst base counter false;
    ICmpInst (base + 1) (VInst base) (i32 stop);
    OtherInst (base + 2) false ].

Definition loop_body (var counter : Value) (base : positive) (m : N) : list Instruction :=
  [ LoadInst base var false;
    LoadInst (base + 1) counter false;
    BinaryOperator (base + 2) SRem (VInst (base + 1)) (i32 m);
    ICmpInst (base + 3) (VInst (base + 2)) (i32 2%N);
    StoreInst (VInst (base + 3)) var false;
    StoreInst (VInst (base + 1)) counter false;
    OtherInst (base + 4) false ].

Definition loop_inc (counter : Value) (base : positive) : list Instruction :=
  [ LoadInst base counter false;
    BinaryOperator (base + 1) Mul (VInst base) (i32 2%N);
    StoreInst (VInst (base + 1)) counter false;
    OtherInst (base + 2) false ].

Definition between : list Instruction :=
  [ StoreInst (i32 1%N) j false; OtherInst 2 false ].

Definition program (block1 block2 block4 block5 block8 : list Instruction)
    (second_stop : N) : Body :=
  fun BB =>
  match BB with
  | 1 => block1
  | 2 => block2
  | 3 => loop_body x i 20 5%N
  | 4 => block4
  | 5 => block5
  | 6 => loop_cond j 40 second_stop
  | 7 => loop_body y j 50 7%N
  | 8 => block8
  | 9 => [StoreInst (i32 1%N) k false; OtherInst 4 false]
  | 10 => loop_cond k 80 255%N
  | 11 => loop_body z k 90 3%N
  | 12 => loop_inc k 110
  | _ => [OtherInst 3 false]
  end.

Definition code (second_stop : N) : Body :=
  program entry (loop_cond i 10 65535%N) (loop_inc i 30) between (loop_inc j 60) second_stop.

Definition first_loop : Loop :=
  {| loop_id := 1; getBlocks := [2; 3; 4];
     getLoopPreheader := Some 1; getUniqueExitBlock := Some 5;
     isAnnotatedParallel := false;
     getHeader := Some 2; getLoopLatch := Some 4;
     getExitingBlock := Some 2 |}.

Definition second_loop : Loop :=
  {| loop_id := 2; getBlocks := [6; 7; 8];
     getLoopPreheader := Some 5; getUniqueExitBlock := Some 9;
     isAnnotatedParallel := false;
     getHeader := Some 6; getLoopLatch := Some 8;
     getExitingBlock := Some 6 |}.

Definition third_loop : Loop :=
  {| loop_id := 3; getBlocks := [10; 11; 12];
     getLoopPreheader := Some 9; getUniqueExitBlock := Some 13;
     isAnnotatedParallel := false;
     getHeader := Some 10; getLoopLatch := Some 12;
     getExitingBlock := Some 10 |}.

Definition no_induction : LoopInduction :=
  {| induction_variable := None; start_const := None; start_variable := None;
     stop_const := None; stop_variable := None; advance_const := None;
     advance_variable := None; advance_op := Xor |}.

(** A record before anything is assigned to it. *)
Definition blank : FusionCandidate :=
  {| loop := first_loop; preheader := None; header := None; pre_exit := None;
     exit := None; latch := None; induction := no_induction; writes := []; reads := [] |}.

Definition all_blocks : list BasicBlock := [1; 2; 3; 4; 5; 6; 7; 8; 9; 10; 11; 12; 13].

Definition variables_of (F : Body) : VarMap := map_variables F all_blocks ∅.

Definition build_in (F : Body) (l : Loop) : Result FusionCandidate :=
  create_fusion_candidate F x Xor blank l (variables_of F).

Definition build (second_stop : N) (l : Loop) : Result FusionCandidate :=
  build_in (code second_stop) l.

(** The candidate of a loop that builds, [blank] otherwise. *)
Definition candidate (second_stop : N) (l : Loop) : FusionCandidate :=
  match build second_stop l with
  | inr c => c
  | inl _ => blank
  end.

Definition first : FusionCandidate := candidate 65535%N first_loop.
Definition second : FusionCandidate := candidate 65535%N second_loop.

(** The second loop when it also loads [x]. *)
Definition second_reading_x : FusionCandidate := push_read x second.

(** The second loop when a block 10 stands between block 5 and its
    header, and is its preheader. *)
Definition second_behind_block : FusionCandidate :=
  set_preheader_exit (Some 10) (exit second) second.

(** The first loop when its condition block compares an argument of the
    procedure before it loads the counter. *)
Definition compare_then_load : list Instruction :=
  [ ICmpInst 11 (VArgument 1) (i32 65535%N);
    LoadInst 10 i false;
    OtherInst 12 false ].

Definition code_compare_first : Body :=
  program entry compare_then_load (loop_inc i 30) between (loop_inc j 60) 65535%N.

Definition first_compare_first : FusionCandidate :=
  match build_in code_compare_first first_loop with
  | inr c => c
  | inl _ => blank
  end.

(** Both counters start from a variable ([n], [m]), and a constant is
    stored to [x], [y] just before:
    [x = 1; for (i = n; ...)] and [y = 1; for (j = m; ...)]. *)
Definition n : Value := VInst 105.
Definition m : Value := VInst 106.

Definition entry_from_n : list Instruction :=
  [ StoreInst (i32 1%N) x false;
    LoadInst 70 n false;
    StoreInst (VInst 70) i false;
    OtherInst 1 false ].

Definition between_from_m : list Instruction :=
  [ StoreInst (i32 1%N) y false;
    LoadInst 71 m false;
    StoreInst (VInst 71) j false;
    OtherInst 2 false ].

Definition code_variable_starts : Body :=
  program entry_from_n (loop_cond i 10 65535%N) (loop_inc i 30) between_from_m
          (loop_inc j 60) 65535%N.

Definition from_n : FusionCandidate :=
  match build_in code_variable_starts first_loop with
  | inr c => c
  | inl _ => blank
  end.

Definition from_m : FusionCandidate :=
  match build_in code_variable_starts second_loop with
  | inr c => c
  | inl _ => blank
  end.

(** The same two loops without the stores of the constant:
    [for (i = n; ...)] and [for (j = m; ...)]. *)
Definition entry_only_from_n : list Instruction :=
  [ LoadInst 70 n false; StoreInst (VInst 70) i false; OtherInst 1 false ].

Definition between_only_from_m : list Instruction :=
  [ LoadInst 71 m false; StoreInst (VInst 71) j false; OtherInst 2 false ].

Definition code_only_variable_starts : Body :=
  program entry_only_from_n (loop_cond i 10 65535%N) (loop_inc i 30) between_only_from_m
          (loop_inc j 60) 65535%N.

Definition only_from_n : FusionCandidate :=
  match build_in code_only_variable_starts first_loop with
  | inr c => c
  | inl _ => blank
  end.

Definition only_from_m : FusionCandidate :=
  match build_in code_only_variable_starts second_loop with
  | inr c => c
  | inl _ => blank
  end.

(** The first counter advances by [i = i * 2 + n], the second by
    [j = j + 2]. *)
Definition inc_times_two_plus_n : list Instruction :=
  [ LoadInst 30 i false;
    BinaryOperator 31 Mul (VInst 30) (i32 2%N);
    LoadInst 32 n false;
    BinaryOperator 33 Add (VInst 31) (VInst 32);
    StoreInst (VInst 33) i false;
    OtherInst 34 false ].

Definition inc_plus_two : list Instruction :=
  [ LoadInst 60 j false;
    BinaryOperator 61 Add (VInst 60) (i32 2%N);
    StoreInst (VInst 61) j false;
    OtherInst 62 false ].

Definition code_two_advances : Body :=
  program entry (loop_cond i 10 65535%N) inc_times_two_plus_n between inc_plus_two 65535%N.

Definition times_two_plus_n : FusionCandidate :=
  match build_in code_two_advances first_loop with
  | inr c => c
  | inl _ => blank
  end.

Definition plus_two : FusionCandidate :=
  match build_in code_two_advances second_loop with
  | inr c => c
  | inl _ => blank
  end.


(** An LLVM side that records the calls it receives. Its queries answer
    from the procedure as it stands before the transform, except that
    the unique successor of a block follows the retargeting of its
    terminator. *)
Definition loops_of (id : LoopId) : Loop :=
  match id with
  | 1 => first_loop
  | 2 => second_loop
  | _ => third_loop
  end.

Definition loop_for (BB : BasicBlock) : option LoopId :=
  match BB with
  | 2 | 3 | 4 => Some 1
  | 6 | 7 | 8 => Some 2
  | 10 | 11 | 12 => Some 3
  | _ => None
  end.

Definition successor_before (b : BasicBlock) : option BasicBlock :=
  match b with
  | 1 => Some 2 | 3 => Some 4 | 4 => Some 2 | 5 => Some 6 | 7 => Some 8 | 8 => Some 6
  | 9 => Some 10 | 11 => Some 12 | 12 => Some 10
  | _ => None
  end.

Definition retarget (b : option BasicBlock) (cur : option BasicBlock) (c : Call)
  : option BasicBlock :=
  match c with
  | Terminator_replaceUsesOfWith blk from to =>
      if bool_decide (blk = b /\ from = cur) then to else cur
  | _ => cur
  end.

Definition recorder (F : Body) : LLVM (list Call) :=
  {| apply_call := fun c s => (s ++ [c])%list;
     body := fun _ => F;
     func_blocks := fun _ => all_blocks;
     loop_info := fun _ id => loops_of id;
     getLoopFor := fun _ BB => loop_for BB;
     getUniqueSuccessor := fun s b =>
       fold_left (retarget b) s (b ≫= successor_before) |}.

Definition junk : Indeterminate :=
  {| junk_value := x; junk_op := Xor; junk_candidate := blank |}.

End Doit.

(** * Vocabulary of the further statements *)

(** An instruction the first scan of the builder refuses. *)
Definition unsafe_instruction (instr : Instruction) : Prop :=
  mayThrow instr = true \/ is_volatile_access instr = true.

(** A constant that is absent or a [ConstantInt]. *)
Definition absent_or_int (k : option Constant) : Prop :=
  match k with
  | None => True
  | Some (ConstantInt _ _) => True
  | Some _ => False
  end.

(** A nest in which no loop has a sibling: every loop has at most one
    sub-loop. *)
Fixpoint single_file (n : LoopNest) : bool :=
  match n with
  | Nest _ subloops =>
      match subloops with
      | [] => true
      | [inner] => single_file inner
      | _ => false
      end
  end.

(** What the driver leaves behind for a loop whose candidate is not
    built: the mark and the line of the failure. *)
Definition refusal {IR} (llvm : LLVM IR) (junk : Indeterminate) (variables : VarMap)
    (s : IR) (l : LoopId) : list Event :=
  Create l ::
  match build_at llvm junk variables s l with
  | inl d => [Dbgs d]
  | inr _ => []
  end.

(** * Properties of the legality checker *)

Section Checker.
Lemma existsb_identity (v : Value) (l : list Value) :
  existsb (fun v2 => bool_decide (v = v2)) l = true <-> v ∈ l.
Proof.
  rewrite existsb_exists. split.
  - intros (x & Hin & Heq). apply bool_decide_eq_true in Heq. subst x.
    by apply list_elem_of_In.
  - intros Hin. exists v. split; [by apply list_elem_of_In | by apply bool_decide_eq_true].
Qed.

(** The three scans of [dependent] as intersections of footprints. *)
Lemma dependent_true_iff (c1 c2 : FusionCandidate) :
  dependent c1 c2 = true <->
  (exists v, v ∈ writes c1 /\ (v ∈ reads c2 \/ v ∈ writes c2))
  \/ (exists v, v ∈ writes c2 /\ v ∈ reads c1).
Proof.
  unfold dependent. rewrite orb_true_iff, !existsb_exists.
  split.
  - intros [(v & Hin & Hv) | (v & Hin & Hv)].
    + left. exists v. apply list_elem_of_In in Hin. split; [done |].
      apply orb_true_iff in Hv. rewrite !existsb_identity in Hv. done.
    + right. exists v. apply list_elem_of_In in Hin. split; [done |].
      by apply existsb_identity.
  - intros [(v & Hin & Hv) | (v & Hin & Hv)].
    + left. exists v. split; [by apply list_elem_of_In |].
      apply orb_true_iff. by rewrite !existsb_identity.
    + right. exists v. split; [by apply list_elem_of_In |].
      by apply existsb_identity.
Qed.

Lemma bool_eq_by_true (a b : bool) : (a = true <-> b = true) -> a = b.
Proof. destruct a, b; intuition congruence. Qed.

Lemma can_be_fused_dependent (c1 c2 : FusionCandidate) : dependent c1 c2 = true -> can_be_fused c1 c2 = false.
Proof.
  intros H. unfold can_be_fused. rewrite H. simpl. by rewrite andb_false_r.
Qed.

Lemma can_be_fused_not_adjacent (c1 c2 : FusionCandidate) : adjacent c1 c2 = false -> can_be_fused c1 c2 = false.
Proof. intros H. unfold can_be_fused. rewrite H. by rewrite andb_false_r. Qed.

Lemma are_constants_equal_spec (L R : Constant) :
  are_constants_equal (Some L) (Some R) = true <-> same_bit_pattern L R.
Proof.
  simpl. split.
  - case_bool_decide as Hty; [done |].
    destruct L, R; simpl in *; try done; intros Hv; apply bool_decide_eq_true in Hv;
      simplify_eq; constructor.
  - intros []; simpl; rewrite bool_decide_eq_false_2 by (intros H; by apply H);
      by apply bool_decide_eq_true.
Qed.

Lemma evolution_check_passes k1 k2 v1 v2 d1 d2 :
  evolution_check k1 k2 v1 v2 d1 d2 = None -> field_agrees k1 k2 v1 v2.
Proof.
  unfold evolution_check, field_agrees.
  assert (Hvar : (if non_null v1 && non_null v2
                  then if bool_decide (v1 <> v2) then Some d1 else None
                  else Some d2) = None -> exists a, v1 = Some a /\ v2 = Some a).
  { destruct v1 as [x|], v2 as [y|]; cbn [non_null andb]; try done.
    case_bool_decide as Hne; [done |]. simplify_eq. eauto. }
  destruct k1 as [a|], k2 as [b|]; cbn [non_null andb]; try (intros H; right; by apply Hvar).
  destruct (are_constants_equal (Some a) (Some b)) eqn:E; cbn [negb]; [| done].
  intros _. left. exists a, b. by rewrite <- are_constants_equal_spec.
Qed.

(** The converse, in the order the source tests the kinds: two constants
    are compared when both are present, the variables only otherwise. *)
Lemma evolution_check_accepts k1 k2 v1 v2 d1 d2 :
  (exists a b, k1 = Some a /\ k2 = Some b /\ same_bit_pattern a b)
  \/ (non_null k1 && non_null k2 = false /\ exists x, v1 = Some x /\ v2 = Some x) ->
  evolution_check k1 k2 v1 v2 d1 d2 = None.
Proof.
  unfold evolution_check.
  intros [(a & b & -> & -> & Hsame) | (Hk & x & -> & ->)].
  - cbn [non_null andb]. apply are_constants_equal_spec in Hsame. by rewrite Hsame.
  - rewrite Hk. cbn [non_null andb]. by rewrite bool_decide_eq_false_2 by (intros H; by apply H).
Qed.

(** A field on which the candidates share no kind is rejected as such. *)
Lemma evolution_check_kind_mismatch k1 k2 v1 v2 d1 d2 :
  non_null k1 && non_null k2 = false ->
  non_null v1 && non_null v2 = false ->
  evolution_check k1 k2 v1 v2 d1 d2 = Some d2.
Proof. unfold evolution_check. by intros -> ->. Qed.

End Checker.

Section Legality.

(** C1. If an element of one candidate's write-set is, by identity, an
    element of the other candidate's write-set or read-set (either
    direction), then [dependent] holds and [can_be_fused] returns false,
    whatever the induction descriptors are. *)
Theorem write_conflict_blocks_fusion (c1 c2 : FusionCandidate) (v : Value) :
  (v ∈ writes c1 /\ (v ∈ writes c2 \/ v ∈ reads c2))
  \/ (v ∈ writes c2 /\ (v ∈ writes c1 \/ v ∈ reads c1)) ->
  dependent c1 c2 = true /\ can_be_fused c1 c2 = false.
Proof.
  intros H.
  assert (Hdep : dependent c1 c2 = true).
  { apply dependent_true_iff.
    destruct H as [[Hw [Hw2 | Hr2]] | [Hw [Hw1 | Hr1]]]; eauto 6. }
  split; [done | by apply can_be_fused_dependent].
Qed.

(** C10. [dependent] is symmetric in its two candidates. *)
Theorem dependent_symmetric (c1 c2 : FusionCandidate) :
  dependent c1 c2 = dependent c2 c1.
Proof.
  apply bool_eq_by_true. rewrite !dependent_true_iff.
  split; intros [(v & Hw & [Hr | Hw']) | (v & Hw & Hr)]; eauto 7.
Qed.

(** C3. [adjacent] holds exactly when the exit block of the first
    candidate is the preheader block of the second (the same block, no
    dominance involved); when another block stands between them, so that
    the two differ, [adjacent] and [can_be_fused] are false. *)
Theorem adjacent_is_block_identity (c1 c2 : FusionCandidate) :
  (adjacent c1 c2 = true <-> exit c1 = preheader c2)
  /\ (exit c1 <> preheader c2 -> adjacent c1 c2 = false /\ can_be_fused c1 c2 = false).
Proof.
  unfold adjacent. split.
  - apply bool_decide_eq_true.
  - intros Hne.
    assert (Hadj : adjacent c1 c2 = false) by by apply bool_decide_eq_false.
    split; [done | by apply can_be_fused_not_adjacent].
Qed.

(** C2. [same_loop_evolution] accepts only when stop, advance and start
    each agree on a kind both candidates record: two constants with the
    same bit pattern (integer width and value, or floating-point
    semantics and bits), or two references to the same variable; and the
    two [advance_op] tags are equal. *)
Theorem same_evolution_requires_agreement (c1 c2 : FusionCandidate) :
  succeeded (same_loop_evolution c1 c2) = true ->
  field_agrees (stop_const (induction c1)) (stop_const (induction c2))
               (stop_variable (induction c1)) (stop_variable (induction c2))
  /\ field_agrees (advance_const (induction c1)) (advance_const (induction c2))
                  (advance_variable (induction c1)) (advance_variable (induction c2))
  /\ advance_op (induction c1) = advance_op (induction c2)
  /\ field_agrees (start_const (induction c1)) (start_const (induction c2))
                  (start_variable (induction c1)) (start_variable (induction c2)).
Proof.
  unfold same_loop_evolution.
  destruct (evolution_check (stop_const _) _ _ _ _ _) eqn:Hstop; [done |].
  destruct (evolution_check (advance_const _) _ _ _ _ _) eqn:Hadv; [done |].
  case_bool_decide as Hop; [done |].
  destruct (evolution_check (start_const _) _ _ _ _ _) eqn:Hstart; [done |].
  intros _. repeat split; try done; by eapply evolution_check_passes.
Qed.

Lemma write_conflict_blocks_fusion_witness :
  Doit.x ∈ writes Doit.first /\ Doit.x ∈ reads Doit.second_reading_x
  /\ succeeded (same_loop_evolution Doit.first Doit.second_reading_x) = true
  /\ dependent Doit.first Doit.second_reading_x = true
  /\ can_be_fused Doit.first Doit.second_reading_x = false.
Proof.
  assert (H1 : Doit.x ∈ writes Doit.first) by (vm_compute; apply list_elem_of_In; simpl; tauto).
  assert (H2 : Doit.x ∈ reads Doit.second_reading_x)
    by (vm_compute; apply list_elem_of_In; simpl; tauto).
  split; [exact H1 |]. split; [exact H2 |]. split; [reflexivity |].
  apply (write_conflict_blocks_fusion Doit.first Doit.second_reading_x Doit.x).
  left. split; [exact H1 | right; exact H2].
Defined.

Lemma adjacent_is_block_identity_witness :
  exit Doit.first <> preheader Doit.second_behind_block
  /\ adjacent Doit.first Doit.second_behind_block = false
  /\ can_be_fused Doit.first Doit.second_behind_block = false.
Proof.
  assert (H : exit Doit.first <> preheader Doit.second_behind_block) by (vm_compute; congruence).
  split; [exact H |].
  exact (proj2 (adjacent_is_block_identity Doit.first Doit.second_behind_block) H).
Defined.

Lemma same_evolution_requires_agreement_witness :
  succeeded (same_loop_evolution Doit.first Doit.second) = true
  /\ field_agrees (stop_const (induction Doit.first)) (stop_const (induction Doit.second))
                  (stop_variable (induction Doit.first)) (stop_variable (induction Doit.second))
  /\ field_agrees (advance_const (induction Doit.first)) (advance_const (induction Doit.second))
                  (advance_variable (induction Doit.first))
                  (advance_variable (induction Doit.second))
  /\ advance_op (induction Doit.first) = advance_op (induction Doit.second)
  /\ field_agrees (start_const (induction Doit.first)) (start_const (induction Doit.second))
                  (start_variable (induction Doit.first)) (start_variable (induction Doit.second)).
Proof.
  assert (H : succeeded (same_loop_evolution Doit.first Doit.second) = true) by reflexivity.
  split; [exact H |].
  exact (same_evolution_requires_agreement Doit.first Doit.second H).
Defined.

(** The scenarios of the two stop constants: equal stops are accepted,
    [0xFFFF] against [0xFF] is rejected on the stop. *)
Example same_stops_accepted :
  can_be_fused Doit.first Doit.second = true.
Proof. reflexivity. Qed.

Example different_stops_rejected :
  same_loop_evolution (Doit.candidate 65535%N Doit.first_loop)
                      (Doit.candidate 255%N Doit.second_loop)
  = inl "Loop stops are not equal".
Proof. reflexivity. Qed.

End Legality.

(** * Properties of the memory operation collector *)

Section Collector.

Lemma extend_nil (c : FusionCandidate) : extend [] [] c = c.
Proof. destruct c. unfold extend. simpl. by rewrite !app_nil_r. Qed.

Lemma extend_extend (w1 r1 w2 r2 : list Value) (c : FusionCandidate) :
  extend w2 r2 (extend w1 r1 c) = extend (w1 ++ w2) (r1 ++ r2) c.
Proof. unfold extend. simpl. by rewrite !app_assoc. Qed.

Lemma push_write_extend (v : Value) (c : FusionCandidate) : push_write v c = extend [v] [] c.
Proof. unfold push_write, extend. by rewrite app_nil_r. Qed.

Lemma push_read_extend (v : Value) (c : FusionCandidate) : push_read v c = extend [] [v] c.
Proof. unfold push_read, extend. by rewrite app_nil_r. Qed.

Lemma memops_header_fold (l : list Instruction) (lc : MemopsLocals) (c : FusionCandidate) :
  fold_left memops_header_instr l (lc, c) =
  ({| gep_operand := gep_operand lc; seen_gep := seen_gep lc;
      header_seen_load := header_seen_load lc || non_null (head (omap load_address l)) |},
   extend (spec_header (header_seen_load lc) l).1 (spec_header (header_seen_load lc) l).2 c).
Proof.
  revert lc c. induction l as [| instr l IH]; intros lc c.
  - destruct lc as [g sg hs]. unfold spec_header. simpl.
    rewrite orb_false_r. destruct hs; simpl; by rewrite extend_nil.
  - destruct instr; simpl fold_left; try (rewrite IH; done).
    destruct lc as [g sg hs]. destruct hs; simpl negb; cbv iota; rewrite IH; simpl.
    + rewrite push_read_extend, extend_extend. done.
    + rewrite push_write_extend, extend_extend. unfold spec_header. simpl.
      rewrite drop_0. done.
Qed.

Lemma memops_body_fold (l : list Instruction) (lc : MemopsLocals) (c : FusionCandidate) :
  exists lc',
    fold_left memops_body_instr l (lc, c) =
      (lc', extend (spec_body (slot_of lc) l).2.1 (spec_body (slot_of lc) l).2.2 c)
    /\ slot_of lc' = (spec_body (slot_of lc) l).1
    /\ header_seen_load lc' = header_seen_load lc.
Proof.
  revert lc c. induction l as [| instr l IH]; intros lc c.
  - exists lc. simpl. by rewrite extend_nil.
  - destruct instr as [s op0 v | op0 op1 v | s op0 idx | s a b | s o a b | s t];
      simpl fold_left; cbn [spec_body].
    + destruct lc as [g [] hs]; cbn [seen_gep gep_operand header_seen_load slot_of];
        match goal with |- context [fold_left _ _ (?lc1, ?c1)] =>
          destruct (IH lc1 c1) as (lc' & Hf & Hs & Hh) end;
        exists lc'; rewrite Hf; cbn [slot_of seen_gep gep_operand] in *;
        destruct (spec_body None l) as [s' [w r]]; simpl in *;
        rewrite push_read_extend, extend_extend; done.
    + destruct lc as [g [] hs]; cbn [seen_gep gep_operand header_seen_load slot_of];
        match goal with |- context [fold_left _ _ (?lc1, ?c1)] =>
          destruct (IH lc1 c1) as (lc' & Hf & Hs & Hh) end;
        exists lc'; rewrite Hf; cbn [slot_of seen_gep gep_operand] in *;
        destruct (spec_body None l) as [s' [w r]]; simpl in *;
        rewrite push_write_extend, extend_extend; done.
    + match goal with |- context [fold_left _ _ (?lc1, ?c1)] =>
        destruct (IH lc1 c1) as (lc' & Hf & Hs & Hh) end.
      exists lc'. rewrite Hf. done.
    + apply IH.
    + apply IH.
    + apply IH.
Qed.

Lemma is_loop_body_extend (w r : list Value) (c : FusionCandidate) (BB : BasicBlock) :
  is_loop_body (extend w r c) BB = is_loop_body c BB.
Proof. done. Qed.

Lemma is_loop_body_off_header (c : FusionCandidate) (BB : BasicBlock) :
  Some BB <> header c ->
  is_loop_body c BB = bool_decide (Some BB <> latch c /\ Some BB <> pre_exit c).
Proof.
  intros Hh. unfold is_loop_body. rewrite (bool_decide_eq_true_2 _ Hh). simpl.
  apply bool_eq_by_true. rewrite andb_true_iff, !bool_decide_eq_true. done.
Qed.

Lemma memops_blocks_fold (F : Body) (bbs : list BasicBlock) (lc : MemopsLocals)
    (c : FusionCandidate) :
  exists lc',
    fold_left (memops_block F) bbs (lc, c) =
      (lc',
       extend
         (spec_blocks F (header c) (latch c) (pre_exit c) (slot_of lc) (header_seen_load lc) bbs).1
         (spec_blocks F (header c) (latch c) (pre_exit c) (slot_of lc) (header_seen_load lc) bbs).2
         c).
Proof.
  revert lc c. induction bbs as [| BB bbs IH]; intros lc c.
  - exists lc. simpl. by rewrite extend_nil.
  - simpl fold_left. unfold memops_block at 2. cbn [snd spec_blocks].
    case_bool_decide as Hh.
    + rewrite memops_header_fold.
      match goal with |- context [fold_left _ _ (?lc1, ?c1)] =>
        destruct (IH lc1 c1) as (lc' & Hf) end.
      exists lc'. rewrite Hf. cbn [header latch pre_exit extend slot_of seen_gep gep_operand
                                   header_seen_load].
      fold (slot_of lc).
      destruct (spec_header _ _) as [w r].
      destruct (spec_blocks _ _ _ _ _ _ _) as [W R]. simpl.
      by rewrite extend_extend.
    + rewrite is_loop_body_off_header by done.
      case_bool_decide as Hb.
      * destruct (memops_body_fold (F BB) lc c) as (lc1 & Hf1 & Hs & Hseen).
        rewrite Hf1.
        destruct (IH lc1 (extend (spec_body (slot_of lc) (F BB)).2.1
                                 (spec_body (slot_of lc) (F BB)).2.2 c)) as (lc' & Hf).
        exists lc'. rewrite Hf. cbn [header latch pre_exit extend].
        rewrite Hs, Hseen. clear Hf Hf1 Hs Hseen.
        destruct (spec_body _ _) as [s' [w r]].
        destruct (spec_blocks _ _ _ _ _ _ _) as [W R]. simpl.
        by rewrite extend_extend.
      * apply IH.
Qed.

Lemma get_loop_memops_appends (F : Body) (indeterminate : Value) (c : FusionCandidate) :
  exists w r, get_loop_memops F indeterminate c = extend w r c.
Proof.
  unfold get_loop_memops.
  match goal with |- context [fold_left _ _ (?lc1, ?c1)] =>
    destruct (memops_blocks_fold F (getBlocks (loop c)) lc1 c1) as (lc' & Hf) end.
  rewrite Hf. eauto.
Qed.

(** C4. The collector appends to the candidate's two arrays exactly what
    the stated policy classifies ([spec_footprint]): in the header the
    first load goes to the write-set and every later load to the
    read-set; in the body blocks (not header, latch or pre-exit) one
    pending address-computation slot is kept, silently overwritten by a
    new address computation, consumed by the next load into the read-set
    or by the next store into the write-set, which otherwise contribute
    their own address operand. Nothing else of the candidate changes, and
    the content [gep_operand] had at its declaration plays no role. *)
Theorem collector_follows_policy (F : Body) (indeterminate : Value) (c : FusionCandidate) :
  get_loop_memops F indeterminate c
  = extend (spec_footprint F c).1 (spec_footprint F c).2 c.
Proof.
  unfold get_loop_memops, spec_footprint.
  pose proof (memops_blocks_fold F (getBlocks (loop c))
                {| gep_operand := indeterminate; seen_gep := false; header_seen_load := false |}
                c) as (lc' & Hfold).
  cbn [slot_of seen_gep header_seen_load] in Hfold.
  by rewrite Hfold.
Qed.

(** The collector on the first loop of the example: the counter loaded
    by the condition block is a write; the body loads [x] and the
    counter and stores both; the increment block is not scanned. *)
Example collector_on_first_loop :
  writes Doit.first = [Doit.i; Doit.x; Doit.i] /\ reads Doit.first = [Doit.x; Doit.i].
Proof. split; reflexivity. Qed.

(** A second address computation overwrites the pending one; the load
    that follows consumes it, and the next load and store use their own
    address operands. *)
Example pending_slot_is_overwritten (a b p q : Value) :
  spec_body None [ GetElementPtrInst 1 a []; GetElementPtrInst 2 b [];
                   LoadInst 3 p false; LoadInst 4 q false;
                   StoreInst (VInst 4) p false ]
  = (None, ([p], [b; q])).
Proof. reflexivity. Qed.

End Collector.

(** * Properties of the induction extractor and of the builder *)

Section Extractor.

Variable F : Body.
Variable variables : VarMap.

Lemma header_scan_handle (l : list Instruction) (iv : option Value)
    (sc : option Constant) (sv : option Value) :
  (fold_left (induction_header_instr variables) l (iv, sc, sv)).1.1
  = match iv with
    | Some v => Some v
    | None => head (omap load_address l)
    end.
Proof.
  revert iv sc sv. induction l as [| instr l IH]; intros iv sc sv.
  - by destruct iv.
  - destruct instr; simpl; try apply IH.
    + destruct iv; rewrite IH; done.
    + destruct (dyn_cast_Constant rhs); rewrite IH; done.
Qed.

Lemma existsb_elem_of {A} (f : A -> bool) (l : list A) :
  existsb f l = true <-> exists a, a ∈ l /\ f a = true.
Proof.
  rewrite existsb_exists. split; intros (a & Hin & Hf); exists a;
    (split; [by apply list_elem_of_In | done]).
Qed.

Lemma is_store_to_true (v : Value) (instr : Instruction) :
  is_store_to (Some v) instr = true <-> exists val vol, instr = StoreInst val v vol.
Proof.
  destruct instr; simpl; try (split; [done | by intros (? & ? & ?)]).
  rewrite bool_decide_eq_true. split.
  - intros [= ->]. eauto.
  - intros (? & ? & [= -> -> ->]). done.
Qed.

Lemma induction_variable_is_stored_iff (c : FusionCandidate) (v : Value) :
  induction_variable_is_stored F c (Some v) = true <-> stored_in_body F c v.
Proof.
  unfold induction_variable_is_stored, stored_in_body. rewrite existsb_elem_of. split.
  - intros (BB & Hin & Hb). apply andb_true_iff in Hb as [Hbody Hst].
    apply existsb_elem_of in Hst as (instr & Hi & Hst).
    apply is_store_to_true in Hst as (val & vol & ->). eauto 8.
  - intros (BB & val & vol & Hin & Hbody & Hi). exists BB. split; [done |].
    apply andb_true_iff. split; [done |].
    apply existsb_elem_of. exists (StoreInst val v vol). split; [done |].
    apply is_store_to_true. eauto.
Qed.

(** What a successful extraction returns. *)
Lemma get_loop_induction_inr (op : BinaryOps) (c c' : FusionCandidate) :
  get_loop_induction F op c variables = inr c' ->
  exists ind v,
    c' = set_induction ind c
    /\ induction_variable ind = Some v
    /\ head (omap load_address (insts_of F (header c))) = Some v
    /\ induction_variable_is_stored F c (Some v) = true.
Proof.
  unfold get_loop_induction.
  pose proof (header_scan_handle (insts_of F (header c)) None None None) as Hiv.
  destruct (fold_left (induction_header_instr variables) _ _) as [[iv sc] sv].
  simpl in Hiv. subst iv.
  destruct (head (omap load_address (insts_of F (header c)))) as [v |]; [| done].
  cbn [non_null negb].
  destruct (negb (non_null sc) && negb (non_null sv)); [done |].
  destruct (induction_variable_is_stored F c (Some v)) eqn:Hst; [| done].
  cbn [negb].
  destruct (fold_left (induction_preheader_instr variables) _ _) as [stc stv].
  destruct (negb (non_null stc) && negb (non_null stv)); [done |].
  destruct (fold_left (induction_latch_instr variables) _ _) as [[ac av] aop].
  destruct (negb (non_null ac) && negb (non_null av)); [done |].
  intros [= <-]. eauto 8.
Qed.

Lemma get_loop_induction_no_load (op : BinaryOps) (c : FusionCandidate) :
  head (omap load_address (insts_of F (header c))) = None ->
  get_loop_induction F op c variables = inl "Loop does not have an induction variable.".
Proof.
  intros Hnone. unfold get_loop_induction.
  pose proof (header_scan_handle (insts_of F (header c)) None None None) as Hiv.
  destruct (fold_left (induction_header_instr variables) _ _) as [[iv sc] sv].
  simpl in Hiv. subst iv. by rewrite Hnone.
Qed.

Lemma get_loop_induction_not_stored (op : BinaryOps) (c : FusionCandidate) (v : Value) :
  head (omap load_address (insts_of F (header c))) = Some v ->
  induction_variable_is_stored F c (Some v) = false ->
  succeeded (get_loop_induction F op c variables) = false.
Proof.
  intros Hfirst Hst. unfold get_loop_induction.
  pose proof (header_scan_handle (insts_of F (header c)) None None None) as Hiv.
  destruct (fold_left (induction_header_instr variables) _ _) as [[iv sc] sv].
  simpl in Hiv. subst iv. rewrite Hfirst. cbn [non_null negb].
  destruct (negb (non_null sc) && negb (non_null sv)); [done |].
  by rewrite Hst.
Qed.

Lemma stored_in_body_set_induction (ind : LoopInduction) (c : FusionCandidate) (v : Value) :
  stored_in_body F (set_induction ind c) v <-> stored_in_body F c v.
Proof. done. Qed.

End Extractor.

Section Scans.

Variable variables : VarMap.

(** The scan of the preheader after one more store: the store assigns
    the local of its own kind and leaves the other as it was. *)
Lemma preheader_scan_last_store (P : list Instruction) (val ptr : Value) (vol : bool)
    (st : option Constant * option Value) :
  fold_left (induction_preheader_instr variables) (P ++ [StoreInst val ptr vol]) st
  = match dyn_cast_ConstantInt val with
    | Some C => (Some C, (fold_left (induction_preheader_instr variables) P st).2)
    | None => ((fold_left (induction_preheader_instr variables) P st).1, variables !! val)
    end.
Proof.
  rewrite fold_left_app. simpl.
  destruct (fold_left (induction_preheader_instr variables) P st) as [c0 v0]. simpl.
  by destruct (dyn_cast_ConstantInt val).
Qed.

(** The scan of the latch after one more binary operation: its opcode is
    [advance_op]; its operand assigns the local of its own kind and
    leaves the other as it was. *)
Lemma latch_scan_last_binop (L : list Instruction) (self : positive) (opc : BinaryOps)
    (lhs rhs : Value) (st : option Constant * option Value * BinaryOps) :
  fold_left (induction_latch_instr variables) (L ++ [BinaryOperator self opc lhs rhs]) st
  = match dyn_cast_ConstantInt rhs with
    | Some C => (Some C, (fold_left (induction_latch_instr variables) L st).1.2, opc)
    | None => ((fold_left (induction_latch_instr variables) L st).1.1, variables !! rhs, opc)
    end.
Proof.
  rewrite fold_left_app. simpl.
  destruct (fold_left (induction_latch_instr variables) L st) as [[c0 v0] o0]. simpl.
  by destruct (dyn_cast_ConstantInt rhs).
Qed.

End Scans.

(** C6 (the code at the failing input). [x = 1; for (i = n; ...)] then
    [y = 1; for (j = m; ...)]: the last store of each preheader stores
    the value loaded from [n], from [m]; the descriptors record these as
    [start_variable] and keep the constant of the earlier store as
    [start_const]; the checker compares the constants and accepts the
    pair, whose counters start from different variables. Without the
    earlier stores the preheaders end with the same stores, no constant
    is recorded and the pair is rejected: the last store does not decide
    the recorded start. *)
Theorem earlier_constant_store_decides_start :
  Doit.build_in Doit.code_variable_starts Doit.first_loop = inr Doit.from_n
  /\ Doit.build_in Doit.code_variable_starts Doit.second_loop = inr Doit.from_m
  /\ last_store (insts_of Doit.code_variable_starts (preheader Doit.from_n))
     = Some (StoreInst (VInst 70) Doit.i false)
  /\ last_store (insts_of Doit.code_variable_starts (preheader Doit.from_m))
     = Some (StoreInst (VInst 71) Doit.j false)
  /\ Doit.variables_of Doit.code_variable_starts !! VInst 70 = Some Doit.n
  /\ Doit.variables_of Doit.code_variable_starts !! VInst 71 = Some Doit.m
  /\ start_variable (induction Doit.from_n) = Some Doit.n
  /\ start_const (induction Doit.from_n) = Some (ConstantInt 32 1)
  /\ start_variable (induction Doit.from_m) = Some Doit.m
  /\ start_const (induction Doit.from_m) = Some (ConstantInt 32 1)
  /\ Doit.n <> Doit.m
  /\ can_be_fused Doit.from_n Doit.from_m = true
  /\ last_store (insts_of Doit.code_only_variable_starts (preheader Doit.only_from_n))
     = last_store (insts_of Doit.code_variable_starts (preheader Doit.from_n))
  /\ last_store (insts_of Doit.code_only_variable_starts (preheader Doit.only_from_m))
     = last_store (insts_of Doit.code_variable_starts (preheader Doit.from_m))
  /\ start_const (induction Doit.only_from_n) = None
  /\ start_variable (induction Doit.only_from_n) = Some Doit.n
  /\ same_loop_evolution Doit.only_from_n Doit.only_from_m = inl "Loop advances are not equal".
Proof. repeat split; try reflexivity. discriminate. Qed.

(** The same in the latch: [i = i * 2 + n] against [j = j + 2]. The last
    binary operation of the first latch adds a variable; the descriptor
    takes its opcode and keeps the constant of the multiplication before
    it, and the checker accepts the pair. *)
Example earlier_constant_operand_decides_advance :
  last_binary_operator (insts_of Doit.code_two_advances (latch Doit.times_two_plus_n))
  = Some (BinaryOperator 33 Add (VInst 31) (VInst 32))
  /\ advance_op (induction Doit.times_two_plus_n) = Add
  /\ advance_variable (induction Doit.times_two_plus_n) = Some Doit.n
  /\ advance_const (induction Doit.times_two_plus_n) = Some (ConstantInt 32 2)
  /\ advance_const (induction Doit.plus_two) = Some (ConstantInt 32 2)
  /\ advance_variable (induction Doit.plus_two) = None
  /\ can_be_fused Doit.times_two_plus_n Doit.plus_two = true.
Proof. repeat split; reflexivity. Qed.

Section Builder.

(** What a successful build returns. *)
Lemma create_fusion_candidate_inr (F : Body) (jv : Value) (jop : BinaryOps)
    (c0 : FusionCandidate) (l : Loop) (variables : VarMap) (c : FusionCandidate) :
  create_fusion_candidate F jv jop c0 l variables = inr c ->
  exists p h lt pe e ind w r v,
    getLoopPreheader l = Some p /\ getHeader l = Some h /\ getLoopLatch l = Some lt
    /\ getExitingBlock l = Some pe /\ getUniqueExitBlock l = Some e
    /\ isAnnotatedParallel l = false
    /\ c = {| loop := l; preheader := Some p; header := Some h; pre_exit := Some pe;
              exit := Some e; latch := Some lt; induction := ind;
              writes := w; reads := r |}
    /\ induction_variable ind = Some v
    /\ head (omap load_address (F h)) = Some v
    /\ stored_in_body F c v.
Proof.
  unfold create_fusion_candidate.
  destruct (check_blocks F (getBlocks l)); [done |].
  cbn [set_preheader_exit preheader exit].
  destruct (getLoopPreheader l) as [p |] eqn:Hp; [| done].
  destruct (getUniqueExitBlock l) as [e |] eqn:He; [| done].
  cbn [non_null negb orb].
  destruct (isAnnotatedParallel l) eqn:Hpar; [done |].
  cbn [set_header_latch_pre_exit header latch pre_exit].
  destruct (getHeader l) as [h |] eqn:Hh; [| done].
  destruct (getLoopLatch l) as [lt |] eqn:Hlt; [| done].
  destruct (getExitingBlock l) as [pe |] eqn:Hpe; [| done].
  cbn [non_null negb orb].
  destruct (get_loop_memops_appends F jv
              (set_loop l
                 (set_header_latch_pre_exit (Some h) (Some lt) (Some pe)
                    (set_preheader_exit (Some p) (Some e) c0)))) as (w & r & Hm).
  rewrite Hm.
  intros Hind. apply get_loop_induction_inr in Hind as (ind & v & -> & Hiv & Hfirst & Hst).
  apply induction_variable_is_stored_iff in Hst.
  eexists p, h, lt, pe, e, ind, _, _, v.
  repeat (split; [done |]). done.
Qed.

(** C5 (as stated, refuted). The first loop with the condition block
    [compare_then_load]: no load occurs before the comparison, and the
    extraction succeeds all the same, with the counter loaded after the
    comparison as the handle. *)
Lemma handle_found_after_comparison :
  first_load_before_comparison
    (insts_of Doit.code_compare_first (header Doit.first_compare_first)) = None
  /\ exists c',
      get_loop_induction Doit.code_compare_first Xor Doit.first_compare_first
        (Doit.variables_of Doit.code_compare_first) = inr c'
      /\ induction_variable (induction c') = Some Doit.i.
Proof. split; [reflexivity |]. eexists. split; reflexivity. Qed.

(** C5 (amended). The handle of a successful extraction is the address
    operand of the first load of the header, wherever the comparisons
    stand; the extraction fails with its diagnostic when the header has
    no load, and fails when the handle is not the target of a store in a
    body block of the loop (a block other than header, latch and
    pre-exit). *)
Theorem induction_handle_is_first_header_load (F : Body) (op : BinaryOps)
    (c : FusionCandidate) (variables : VarMap) :
  (head (omap load_address (insts_of F (header c))) = None ->
   get_loop_induction F op c variables = inl "Loop does not have an induction variable.")
  /\ (forall v, head (omap load_address (insts_of F (header c))) = Some v ->
                ~ stored_in_body F c v ->
                succeeded (get_loop_induction F op c variables) = false)
  /\ (forall c', get_loop_induction F op c variables = inr c' ->
                 exists v, head (omap load_address (insts_of F (header c))) = Some v
                           /\ induction_variable (induction c') = Some v
                           /\ stored_in_body F c v).
Proof.
  split; [apply get_loop_induction_no_load |]. split.
  - intros v Hfirst Hns. eapply get_loop_induction_not_stored; [done |].
    destruct (induction_variable_is_stored F c (Some v)) eqn:E; [| done].
    by apply induction_variable_is_stored_iff in E.
  - intros c' Hc'. apply get_loop_induction_inr in Hc' as (ind & v & -> & Hiv & Hfirst & Hst).
    exists v. by rewrite <- induction_variable_is_stored_iff.
Qed.

Lemma induction_handle_is_first_header_load_witness :
  get_loop_induction (Doit.code 65535%N) Xor Doit.first
    (Doit.variables_of (Doit.code 65535%N)) = inr Doit.first
  /\ exists v, head (omap load_address (insts_of (Doit.code 65535%N) (header Doit.first))) = Some v
               /\ induction_variable (induction Doit.first) = Some v
               /\ stored_in_body (Doit.code 65535%N) Doit.first v.
Proof.
  assert (H : get_loop_induction (Doit.code 65535%N) Xor Doit.first
                (Doit.variables_of (Doit.code 65535%N)) = inr Doit.first) by reflexivity.
  split; [exact H |].
  exact (proj2 (proj2 (induction_handle_is_first_header_load (Doit.code 65535%N) Xor Doit.first
                         (Doit.variables_of (Doit.code 65535%N)))) Doit.first H).
Defined.

(** C7 (as stated, refuted). The first loop of the example exits from
    its condition block: the candidate is built, and its header and its
    pre-exit are the same block. *)
Lemma built_candidate_header_is_pre_exit :
  Doit.build 65535%N Doit.first_loop = inr Doit.first
  /\ header Doit.first = pre_exit Doit.first
  /\ ~ five_distinct Doit.first.
Proof.
  split; [reflexivity |]. split; [reflexivity |].
  unfold five_distinct. intros Hnd.
  apply NoDup_cons in Hnd as [_ Hnd]. apply NoDup_cons in Hnd as [Hnotin _].
  apply Hnotin. vm_compute. apply list_elem_of_In. simpl. tauto.
Qed.

(** C7 (amended). A candidate the builder returns has its preheader,
    header, latch, pre-exit and exit non-null, each the answer of the
    corresponding query of its loop (nothing makes them distinct); the
    loop has a unique exit block and a single exiting block; and the
    induction variable, the first load of the header, is the target of a
    store in a body block of the loop (other than header, latch and
    pre-exit). *)
Theorem built_candidate_invariant (F : Body) (jv : Value) (jop : BinaryOps)
    (c0 : FusionCandidate) (l : Loop) (variables : VarMap) (c : FusionCandidate) :
  create_fusion_candidate F jv jop c0 l variables = inr c ->
  loop c = l
  /\ (exists p h lt pe e,
        preheader c = Some p /\ header c = Some h /\ latch c = Some lt
        /\ pre_exit c = Some pe /\ exit c = Some e
        /\ getLoopPreheader l = Some p /\ getHeader l = Some h /\ getLoopLatch l = Some lt
        /\ getExitingBlock l = Some pe /\ getUniqueExitBlock l = Some e)
  /\ (exists v, induction_variable (induction c) = Some v /\ stored_in_body F c v).
Proof.
  intros H.
  apply create_fusion_candidate_inr in H
    as (p & h & lt & pe & e & ind & w & r & v & Hp & Hh & Hlt & Hpe & He & _ & Hc & Hiv & _ & Hst).
  split; [by rewrite Hc |]. split.
  - exists p, h, lt, pe, e. rewrite Hc. simpl. done.
  - exists v. split; [by rewrite Hc | done].
Qed.

Lemma built_candidate_invariant_witness :
  Doit.build 65535%N Doit.first_loop = inr Doit.first
  /\ loop Doit.first = Doit.first_loop
  /\ (exists p h lt pe e,
        preheader Doit.first = Some p /\ header Doit.first = Some h
        /\ latch Doit.first = Some lt /\ pre_exit Doit.first = Some pe
        /\ exit Doit.first = Some e
        /\ getLoopPreheader Doit.first_loop = Some p /\ getHeader Doit.first_loop = Some h
        /\ getLoopLatch Doit.first_loop = Some lt
        /\ getExitingBlock Doit.first_loop = Some pe
        /\ getUniqueExitBlock Doit.first_loop = Some e)
  /\ (exists v, induction_variable (induction Doit.first) = Some v
                /\ stored_in_body (Doit.code 65535%N) Doit.first v).
Proof.
  assert (H : Doit.build 65535%N Doit.first_loop = inr Doit.first) by reflexivity.
  split; [exact H |].
  exact (built_candidate_invariant (Doit.code 65535%N) Doit.x Xor Doit.blank Doit.first_loop
           (Doit.variables_of (Doit.code 65535%N)) Doit.first H).
Defined.

End Builder.

(** * Properties of the transform and of the driver *)

Section Runs.

Context {IR : Type} (llvm : LLVM IR).
Variable junk : Indeterminate.
Variable variables : VarMap.

Lemma events_bind {A B} (m : M IR A) (k : A -> M IR B) (s : IR) :
  events (bind m k s)
  = (events (m s) ++ events (k (returned (m s)) (final_state (m s))))%list.
Proof.
  unfold bind, events, returned, final_state.
  destruct (m s) as [[a s1] l1]. simpl. destruct (k a s1) as [[b s2] l2]. done.
Qed.

Lemma final_state_bind {A B} (m : M IR A) (k : A -> M IR B) (s : IR) :
  final_state (bind m k s) = final_state (k (returned (m s)) (final_state (m s))).
Proof.
  unfold bind, events, returned, final_state.
  destruct (m s) as [[a s1] l1]. simpl. destruct (k a s1) as [[b s2] l2]. done.
Qed.


Lemma calls_app (t1 t2 : list Event) : calls (t1 ++ t2) = (calls t1 ++ calls t2)%list.
Proof. apply omap_app. Qed.

Lemma created_app (t1 t2 : list Event) : created (t1 ++ t2) = (created t1 ++ created t2)%list.
Proof. apply omap_app. Qed.

(** The re-parenting of one block: two or three loop-info calls. *)
Lemma reparent_block_events (c1 c2 : FusionCandidate) (BB : BasicBlock) (s : IR) :
  created (events (reparent_block llvm c1 c2 BB s)) = []
  /\ Forall (fun c => is_cfg_edit c = false /\ is_recalculate c = false)
            (calls (events (reparent_block llvm c1 c2 BB s))).
Proof.
  unfold reparent_block, bind, call, query, events. simpl.
  case_bool_decide; simpl; repeat constructor.
Qed.

Lemma for_each_reparent_events (c1 c2 : FusionCandidate) (l : list BasicBlock) (s : IR) :
  created (events (for_each l (reparent_block llvm c1 c2) s)) = []
  /\ Forall (fun c => is_cfg_edit c = false /\ is_recalculate c = false)
            (calls (events (for_each l (reparent_block llvm c1 c2) s))).
Proof.
  revert s. induction l as [| BB l IH]; intros s.
  - simpl. split; [done | constructor].
  - cbn [for_each]. rewrite events_bind, created_app, calls_app.
    destruct (reparent_block_events c1 c2 BB s) as [Hc Hf].
    destruct (IH (final_state (reparent_block llvm c1 c2 BB s))) as [Hc' Hf'].
    rewrite Hc. split; [done |]. apply Forall_app. done.
Qed.

(** The calls of one transform, in order. *)
Lemma fuse_with_first_events (c1 c2 : FusionCandidate) (s : IR) :
  created (events (fuse_with_first llvm c1 c2 s)) = []
  /\ exists successor reparent,
      calls (events (fuse_with_first llvm c1 c2 s))
      = (transform_prefix c1 c2 successor ++ reparent
         ++ [EliminateUnreachableBlocks; LA_erase (loop_id (loop c2))])%list
      /\ Forall (fun c => is_cfg_edit c = false /\ is_recalculate c = false) reparent.
Proof.
  unfold fuse_with_first.
  repeat (rewrite events_bind, created_app, calls_app; cbn [call events snd calls created omap
            call_of created_of app final_state returned fst query emit]).
  match goal with |- context [for_each ?l ?f ?s'] =>
    destruct (for_each_reparent_events c1 c2 l s') as [Hc Hf] end.
  rewrite Hc. split; [done |].
  eexists _, _. split; [| exact Hf]. unfold transform_prefix. simpl.
  reflexivity.
Qed.

Lemma bind_ext {A B} (m : M IR A) (k1 k2 : A -> M IR B) (s : IR) :
  (forall a s', k1 a s' = k2 a s') -> bind m k1 s = bind m k2 s.
Proof. intros H. unfold bind. destruct (m s) as [[a s1] l1]. by rewrite H. Qed.

Lemma bind_ext_l {A B} (m1 m2 : M IR A) (k : A -> M IR B) (s : IR) :
  m1 s = m2 s -> bind m1 k s = bind m2 k s.
Proof. intros H. unfold bind. by rewrite H. Qed.

Lemma LoopNest_forall_ind (P : LoopNest -> Prop) :
  (forall l subloops, Forall P subloops -> P (Nest l subloops)) -> forall n, P n.
Proof.
  intros H. fix IH 1. intros [l subloops]. apply H.
  induction subloops as [| n rest IHrest]; constructor; [apply IH | apply IHrest].
Qed.

(** The three outcomes of the body of the [for]. *)
Lemma visit_loop_failed (l : LoopId) (st : Collector) (s : IR) (d : string) :
  build_at llvm junk variables s l = inl d ->
  visit_loop llvm junk variables l st s = (st, s, [Create l; Dbgs d]).
Proof.
  intros Hb. destruct st as [flag coll].
  unfold visit_loop, bind, emit, query, ret. fold (build_at llvm junk variables s l).
  rewrite Hb. done.
Qed.

Lemma visit_loop_collected (l : LoopId) (flag : bool) (coll : FusionCandidate) (s : IR)
    (current : FusionCandidate) :
  build_at llvm junk variables s l = inr current ->
  flag && can_be_fused coll current = false ->
  returned (visit_loop llvm junk variables l (flag, coll) s) = (true, current)
  /\ final_state (visit_loop llvm junk variables l (flag, coll) s) = s
  /\ calls (events (visit_loop llvm junk variables l (flag, coll) s)) = []
  /\ created (events (visit_loop llvm junk variables l (flag, coll) s)) = [l].
Proof.
  intros Hb Hno.
  unfold visit_loop, bind, emit, query, ret. fold (build_at llvm junk variables s l).
  rewrite Hb. destruct flag; simpl in Hno |- *; [| done].
  unfold can_be_fused_dbgs, bind, emit, ret.
  destruct (same_loop_evolution coll current); rewrite Hno; done.
Qed.



(** A loop is visited after the pass over its sub-loops, which has
    locals of its own. *)
Lemma visit_nest_unfold (l : LoopId) (subloops : list LoopNest) (st : Collector) (s : IR) :
  visit_nest llvm junk variables (Nest l subloops) st s
  = bind (visit_siblings llvm junk variables subloops (false, declared (junk_candidate junk)))
         (fun _ => visit_loop llvm junk variables l st) s.
Proof.
  cbn [visit_nest].
  generalize (false, declared (junk_candidate junk)). intros st0.
  apply bind_ext_l.
  revert st0 s. induction subloops as [| n rest IH]; intros st0 s; [done |].
  cbn [visit_siblings]. apply bind_ext. intros a s'. apply IH.
Qed.






Lemma recalculations_paired_skip (l r : list Call) :
  Forall (fun c => is_cfg_edit c = false /\ is_recalculate c = false) l ->
  recalculations_paired (l ++ r) = recalculations_paired r
  /\ List.filter is_recalculate (l ++ r) = List.filter is_recalculate r.
Proof.
  induction 1 as [| c l [_ Hc] _ [IH1 IH2]]; [done |].
  split.
  - destruct c; try discriminate Hc; simpl; exact IH1.
  - simpl. rewrite Hc. exact IH2.
Qed.

(** C9 (amended). The transform issues its calls in this order: the
    setup instructions are moved; the exit branch of [c1] is retargeted,
    the terminator of [c2]'s preheader is replaced by an unreachable and
    both back edges are rewired, these edits in one batch (so that an
    edit is made while an earlier one waits for recomputation);
    dominance then post-dominance are recomputed; [c2]'s preheader
    leaves the loop info; dominance then post-dominance are recomputed;
    the latch instructions are moved and the successor of [c1]'s latch
    is merged; dominance then post-dominance are recomputed; the blocks
    of [c2]'s loop are re-parented by loop-info calls only; unreachable
    blocks are removed and [c2]'s loop is erased, with no recomputation
    after. Three recomputations in all, each of dominance at once
    followed by post-dominance. *)
Theorem transform_recomputes_after_batches (c1 c2 : FusionCandidate) (s : IR) :
  exists successor reparent,
    calls (events (fuse_with_first llvm c1 c2 s))
    = (transform_prefix c1 c2 successor ++ reparent
       ++ [EliminateUnreachableBlocks; LA_erase (loop_id (loop c2))])%list
    /\ Forall (fun c => is_cfg_edit c = false /\ is_recalculate c = false) reparent
    /\ one_at_a_time false (calls (events (fuse_with_first llvm c1 c2 s))) = false
    /\ recalculations_paired (calls (events (fuse_with_first llvm c1 c2 s))) = true
    /\ length (List.filter is_recalculate (calls (events (fuse_with_first llvm c1 c2 s)))) = 6.
Proof.
  destruct (fuse_with_first_events c1 c2 s) as (_ & successor & reparent & Hcalls & Hrep).
  exists successor, reparent. rewrite Hcalls.
  destruct (recalculations_paired_skip reparent
              [EliminateUnreachableBlocks; LA_erase (loop_id (loop c2))] Hrep)
    as [Hpaired Hfilter].
  split; [done |]. split; [done |]. split; [reflexivity |].
  unfold transform_prefix. split.
  - cbn [app recalculations_paired is_recalculate negb andb]. exact Hpaired.
  - cbn [app List.filter is_recalculate]. rewrite Hfilter. reflexivity.
Qed.

End Runs.

(** C9 (as stated, refuted). In the transform of the two loops of the
    example, an edit of the CFG is made while an earlier one still waits
    for the recomputation. *)
Lemma transform_edits_are_batched :
  one_at_a_time false
    (calls (events (fuse_with_first (Doit.recorder (Doit.code 65535%N))
                      Doit.first Doit.second [])))
  = false.
Proof. reflexivity. Qed.


(** The pass over the example in the order of the procedure: the second
    loop is fused into the first, which stays the collector; the third
    loop is then compared with the first. *)
Example second_loop_fused_into_first :
  created (events (fuse_same_depth_loops_recursive (Doit.recorder (Doit.code 65535%N))
                     Doit.junk (Doit.variables_of (Doit.code 65535%N))
                     [Nest 1%positive []; Nest 2%positive []; Nest 3%positive []] []))
  = [1%positive; 2%positive; 3%positive]
  /\ last (calls (events (fuse_same_depth_loops_recursive (Doit.recorder (Doit.code 65535%N))
                            Doit.junk (Doit.variables_of (Doit.code 65535%N))
                            [Nest 1%positive []; Nest 2%positive []; Nest 3%positive []] [])))
     = Some (LA_erase 2%positive).
Proof. split; reflexivity. Qed.

(** * Further properties of the legality checker *)

Section CheckerMore.

Lemma are_constants_equal_sym (L R : option Constant) :
  are_constants_equal L R = are_constants_equal R L.
Proof.
  destruct L as [l |], R as [r |]; try done.
  apply bool_eq_by_true. rewrite !are_constants_equal_spec.
  split; intros []; constructor.
Qed.

Lemma evolution_check_sym k1 k2 v1 v2 d1 d2 :
  evolution_check k1 k2 v1 v2 d1 d2 = evolution_check k2 k1 v2 v1 d1 d2.
Proof.
  unfold evolution_check.
  rewrite (andb_comm (non_null k1)), (andb_comm (non_null v1)).
  rewrite (are_constants_equal_sym k1 k2).
  destruct (non_null k2 && non_null k1); [done |].
  destruct (non_null v2 && non_null v1); [| done].
  repeat case_bool_decide; congruence.
Qed.

(** [same_loop_evolution] does not depend on the order of its two
    candidates: the same verdict, and on rejection the same line. *)
Theorem same_loop_evolution_symmetric (c1 c2 : FusionCandidate) :
  same_loop_evolution c1 c2 = same_loop_evolution c2 c1.
Proof.
  unfold same_loop_evolution.
  rewrite (evolution_check_sym (stop_const (induction c1))).
  destruct (evolution_check (stop_const (induction c2)) _ _ _ _ _); [done |].
  rewrite (evolution_check_sym (advance_const (induction c1))).
  destruct (evolution_check (advance_const (induction c2)) _ _ _ _ _); [done |].
  rewrite (evolution_check_sym (start_const (induction c1))).
  repeat case_bool_decide; congruence.
Qed.

(** [are_constants_equal] on one and the same constant: true for an
    integer or a floating-point constant, false for any other constant
    (a null pointer, a global, a constant expression). *)
Lemma are_constants_equal_same (k : Constant) :
  are_constants_equal (Some k) (Some k)
  = match k with
    | ConstantOther _ _ => false
    | _ => true
    end.
Proof.
  destruct k; simpl; rewrite bool_decide_eq_false_2 by (intros H; by apply H);
    try done; by apply bool_decide_eq_true.
Qed.

(** A stop that is a constant other than an integer or a floating-point
    number never matches: as soon as both candidates have a constant
    stop and one of the two is such a constant, the pair is rejected on
    the stop, even when the two constants are the same one. *)
Theorem other_constant_stop_never_matches (c1 c2 : FusionCandidate) (ty : Ty)
    (id : positive) (k : Constant) :
  (stop_const (induction c1) = Some (ConstantOther ty id) /\ stop_const (induction c2) = Some k)
  \/ (stop_const (induction c1) = Some k /\ stop_const (induction c2) = Some (ConstantOther ty id)) ->
  same_loop_evolution c1 c2 = inl "Loop stops are not equal"
  /\ can_be_fused c1 c2 = false.
Proof.
  intros H.
  assert (Hev : same_loop_evolution c1 c2 = inl "Loop stops are not equal").
  { unfold same_loop_evolution, evolution_check.
    destruct H as [[-> ->] | [-> ->]]; cbn [non_null andb].
    - simpl. by case_bool_decide.
    - replace (are_constants_equal (Some k) (Some (ConstantOther ty id))) with false; [done |].
      rewrite are_constants_equal_sym. simpl. by case_bool_decide. }
  split; [done |]. unfold can_be_fused. by rewrite Hev.
Qed.

(** [can_be_fused] holds exactly when the evolutions are accepted, no
    element of one write-set is in the other candidate's write-set or
    read-set, and the exit of the first is the preheader of the second;
    elements that only the two read-sets share play no role. *)
Theorem can_be_fused_iff (c1 c2 : FusionCandidate) :
  can_be_fused c1 c2 = true <->
  same_loop_evolution c1 c2 = inr ()
  /\ (forall v, v ∈ writes c1 -> (v ∉ writes c2) /\ (v ∉ reads c2))
  /\ (forall v, v ∈ writes c2 -> v ∉ reads c1)
  /\ exit c1 = preheader c2.
Proof.
  unfold can_be_fused. rewrite !andb_true_iff, negb_true_iff.
  assert (Hdep : dependent c1 c2 = false <->
                 (forall v, v ∈ writes c1 -> (v ∉ writes c2) /\ (v ∉ reads c2))
                 /\ (forall v, v ∈ writes c2 -> v ∉ reads c1)).
  { rewrite <- not_true_iff_false, dependent_true_iff. split.
    - intros Hno. split.
      + intros v Hw. split; intros Hin; apply Hno; left; eauto.
      + intros v Hw Hin. apply Hno. right. eauto.
    - intros [H1 H2] [(v & Hw & [Hr | Hw2]) | (v & Hw & Hr)].
      + by destruct (H1 v Hw).
      + by destruct (H1 v Hw).
      + by apply (H2 v Hw). }
  rewrite Hdep. unfold adjacent. rewrite bool_decide_eq_true.
  assert (Hs : succeeded (same_loop_evolution c1 c2) = true <-> same_loop_evolution c1 c2 = inr ()).
  { destruct (same_loop_evolution c1 c2) as [| []]; simpl; split; congruence. }
  rewrite Hs. tauto.
Qed.

End CheckerMore.

(** * Further properties of the extractor and of the builder *)

Section BuilderMore.

Variable F : Body.
Variable variables : VarMap.

(** The latch scan from two contents of [advance_op]: the same
    constant and variable; the same opcode too, unless the latch has no
    binary operation, and then nothing is found. *)
Lemma latch_scan_indeterminate (l : list Instruction) (ac : option Constant)
    (av : option Value) (op op' : BinaryOps) :
  (fold_left (induction_latch_instr variables) l (ac, av, op)
   = fold_left (induction_latch_instr variables) l (ac, av, op'))
  \/ (fold_left (induction_latch_instr variables) l (ac, av, op) = (ac, av, op)
      /\ fold_left (induction_latch_instr variables) l (ac, av, op') = (ac, av, op')).
Proof.
  revert ac av. induction l as [| instr l IH]; intros ac av; [by right |].
  destruct instr; simpl; try apply IH.
  left. by destruct (dyn_cast_ConstantInt rhs).
Qed.

Lemma get_loop_induction_indeterminate (op op' : BinaryOps) (c : FusionCandidate) :
  get_loop_induction F op c variables = get_loop_induction F op' c variables.
Proof.
  unfold get_loop_induction.
  destruct (fold_left (induction_header_instr variables) _ _) as [[iv sc] sv].
  destruct (negb (non_null iv)); [done |].
  destruct (negb (non_null sc) && negb (non_null sv)); [done |].
  destruct (negb (induction_variable_is_stored F c iv)); [done |].
  destruct (fold_left (induction_preheader_instr variables) _ _) as [stc stv].
  destruct (negb (non_null stc) && negb (non_null stv)); [done |].
  destruct (latch_scan_indeterminate (insts_of F (latch c)) None None op op')
    as [-> | [-> ->]]; done.
Qed.

Lemma get_loop_memops_footprint (jv : Value) (c : FusionCandidate) :
  get_loop_memops F jv c = extend (spec_footprint F c).1 (spec_footprint F c).2 c.
Proof.
  unfold get_loop_memops, spec_footprint.
  pose proof (memops_blocks_fold F (getBlocks (loop c))
                {| gep_operand := jv; seen_gep := false; header_seen_load := false |} c)
    as (lc' & Hfold).
  cbn [slot_of seen_gep header_seen_load] in Hfold.
  by rewrite Hfold.
Qed.

(** What the source leaves uninitialised never reaches the result of the
    builder: the content of [gep_operand] and of [advance_op] at their
    declarations and the pointer fields and the descriptor of the
    caller's record play no role; only the two arrays of the record do,
    to which the footprints are appended. *)
Theorem builder_ignores_uninitialised (jv jv' : Value) (jop jop' : BinaryOps)
    (c0 c0' : FusionCandidate) (l : Loop) :
  writes c0 = writes c0' ->
  reads c0 = reads c0' ->
  create_fusion_candidate F jv jop c0 l variables
  = create_fusion_candidate F jv' jop' c0' l variables.
Proof.
  intros Hw Hr. unfold create_fusion_candidate.
  destruct (check_blocks F (getBlocks l)); [done |].
  cbn [set_preheader_exit preheader exit].
  destruct (negb (non_null (getLoopPreheader l)) || negb (non_null (getUniqueExitBlock l)));
    [done |].
  destruct (isAnnotatedParallel l); [done |].
  cbn [set_header_latch_pre_exit header latch pre_exit].
  destruct (negb (non_null (getHeader l)) || negb (non_null (getLoopLatch l))
            || negb (non_null (getExitingBlock l))); [done |].
  rewrite !get_loop_memops_footprint.
  rewrite (get_loop_induction_indeterminate jop jop').
  unfold set_loop, set_header_latch_pre_exit, set_preheader_exit, spec_footprint, extend.
  cbn [loop preheader header pre_exit exit latch induction writes reads].
  rewrite <- Hw, <- Hr.
  reflexivity.
Qed.

Lemma check_instructions_None (l : list Instruction) :
  check_instructions l = None <->
  forall instr, instr ∈ l -> mayThrow instr = false /\ is_volatile_access instr = false.
Proof.
  induction l as [| i l IH]; simpl.
  - split; [intros _ instr Hin; by apply elem_of_nil in Hin | done].
  - destruct (mayThrow i) eqn:Ht.
    { split; [done |]. intros H. destruct (H i) as [Hf _]; [left |]. congruence. }
    destruct (is_volatile_access i) eqn:Hv.
    { split; [done |]. intros H. destruct (H i) as [_ Hf]; [left |]. congruence. }
    rewrite IH. split.
    + intros H instr Hin. apply elem_of_cons in Hin as [-> | Hin]; [done | by apply H].
    + intros H instr Hin. apply H. by right.
Qed.

Lemma check_instructions_Some (l : list Instruction) (d : string) :
  check_instructions l = Some d ->
  d = "Loop contains instruction that may throw exception."
  \/ d = "Loop contains volatile memory access.".
Proof.
  induction l as [| i l IH]; simpl; [done |].
  destruct (mayThrow i); [intros [= <-]; by left |].
  destruct (is_volatile_access i); [intros [= <-]; by right | done].
Qed.

Lemma check_blocks_None (bbs : list BasicBlock) :
  check_blocks F bbs = None <->
  forall BB instr, BB ∈ bbs -> instr ∈ F BB ->
                   mayThrow instr = false /\ is_volatile_access instr = false.
Proof.
  induction bbs as [| BB bbs IH]; simpl.
  - split; [intros _ b instr Hin; by apply elem_of_nil in Hin | done].
  - destruct (check_instructions (F BB)) as [d |] eqn:Hc.
    + split; [done |]. intros H.
      assert (Hn : check_instructions (F BB) = None).
      { apply check_instructions_None. intros instr Hin. apply (H BB); [left | done]. }
      congruence.
    + rewrite IH. pose proof (proj1 (check_instructions_None _) Hc) as Hc'. split.
      * intros H b instr Hb Hin. apply elem_of_cons in Hb as [-> | Hb]; [by apply Hc' |].
        by apply (H b).
      * intros H b instr Hb Hin. apply (H b); [by right | done].
Qed.

Lemma check_blocks_Some (bbs : list BasicBlock) (d : string) :
  check_blocks F bbs = Some d ->
  d = "Loop contains instruction that may throw exception."
  \/ d = "Loop contains volatile memory access.".
Proof.
  induction bbs as [| BB bbs IH]; simpl; [done |].
  destruct (check_instructions (F BB)) as [d' |] eqn:Hc; [| done].
  intros [= <-]. by apply check_instructions_Some in Hc.
Qed.

(** A loop with an instruction that may throw, or with a volatile load
    or store, in any of its blocks is refused before anything else of
    the loop is looked at, with one of the two lines of that scan. *)
Theorem unsafe_loop_is_refused (jv : Value) (jop : BinaryOps) (c0 : FusionCandidate)
    (l : Loop) (BB : BasicBlock) (instr : Instruction) :
  BB ∈ getBlocks l ->
  instr ∈ F BB ->
  unsafe_instruction instr ->
  create_fusion_candidate F jv jop c0 l variables
    = inl "Loop contains instruction that may throw exception."
  \/ create_fusion_candidate F jv jop c0 l variables
    = inl "Loop contains volatile memory access.".
Proof.
  intros Hb Hin Hunsafe. unfold create_fusion_candidate.
  destruct (check_blocks F (getBlocks l)) as [d |] eqn:Hc.
  - apply check_blocks_Some in Hc as [-> | ->]; [by left | by right].
  - exfalso. destruct (proj1 (check_blocks_None _) Hc BB instr Hb Hin) as [Ht Hv].
    destruct Hunsafe; congruence.
Qed.

Lemma preheader_scan_int (l : list Instruction) (sc : option Constant) (sv : option Value) :
  absent_or_int sc ->
  absent_or_int (fold_left (induction_preheader_instr variables) l (sc, sv)).1.
Proof.
  revert sc sv. induction l as [| instr l IH]; intros sc sv Hsc; [done |].
  destruct instr; simpl; try by apply IH.
  destruct val as [[b n | |] | |]; simpl; by apply IH.
Qed.

Lemma latch_scan_int (l : list Instruction) (ac : option Constant) (av : option Value)
    (op : BinaryOps) :
  absent_or_int ac ->
  absent_or_int (fold_left (induction_latch_instr variables) l (ac, av, op)).1.1.
Proof.
  revert ac av op. induction l as [| instr l IH]; intros ac av op Hac; [done |].
  destruct instr; simpl; try by apply IH.
  destruct rhs as [[b n | |] | |]; simpl; by apply IH.
Qed.

Lemma get_loop_induction_kinds (op : BinaryOps) (c c' : FusionCandidate) :
  get_loop_induction F op c variables = inr c' ->
  non_null (stop_const (induction c')) || non_null (stop_variable (induction c')) = true
  /\ non_null (start_const (induction c')) || non_null (start_variable (induction c')) = true
  /\ non_null (advance_const (induction c')) || non_null (advance_variable (induction c')) = true
  /\ absent_or_int (start_const (induction c'))
  /\ absent_or_int (advance_const (induction c')).
Proof.
  unfold get_loop_induction.
  destruct (fold_left (induction_header_instr variables) _ _) as [[iv sc] sv].
  destruct (negb (non_null iv)); [done |].
  destruct (negb (non_null sc) && negb (non_null sv)) eqn:Hstop; [done |].
  destruct (negb (induction_variable_is_stored F c iv)); [done |].
  pose proof (preheader_scan_int (insts_of F (preheader c)) None None I) as Hsi.
  destruct (fold_left (induction_preheader_instr variables) _ _) as [stc stv].
  destruct (negb (non_null stc) && negb (non_null stv)) eqn:Hstart; [done |].
  pose proof (latch_scan_int (insts_of F (latch c)) None None op I) as Hai.
  destruct (fold_left (induction_latch_instr variables) _ _) as [[ac av] aop].
  destruct (negb (non_null ac) && negb (non_null av)) eqn:Hadv; [done |].
  intros [= <-]. cbn [induction set_induction stop_const stop_variable start_const
                      start_variable advance_const advance_variable].
  repeat split; try done.
  - by destruct (non_null sc), (non_null sv).
  - by destruct (non_null stc), (non_null stv).
  - by destruct (non_null ac), (non_null av).
Qed.

(** A candidate the builder returns is for a loop that is not annotated
    parallel, and its descriptor records at least one kind for each of
    stop, start and advance; a recorded start or advance constant is an
    integer constant. *)
Theorem built_descriptor_is_resolved (jv : Value) (jop : BinaryOps) (c0 : FusionCandidate)
    (l : Loop) (c : FusionCandidate) :
  create_fusion_candidate F jv jop c0 l variables = inr c ->
  isAnnotatedParallel l = false
  /\ non_null (stop_const (induction c)) || non_null (stop_variable (induction c)) = true
  /\ non_null (start_const (induction c)) || non_null (start_variable (induction c)) = true
  /\ non_null (advance_const (induction c)) || non_null (advance_variable (induction c)) = true
  /\ absent_or_int (start_const (induction c))
  /\ absent_or_int (advance_const (induction c)).
Proof.
  intros H.
  pose proof (create_fusion_candidate_inr F jv jop c0 l variables c H)
    as (_ & _ & _ & _ & _ & _ & _ & _ & _ & _ & _ & _ & _ & _ & Hpar & _).
  split; [done |].
  unfold create_fusion_candidate in H.
  destruct (check_blocks F (getBlocks l)); [done |].
  destruct (negb _ || negb _) in H; [done |].
  destruct (isAnnotatedParallel l) in H; [done |].
  destruct (negb _ || negb _ || negb _) in H; [done |].
  by apply get_loop_induction_kinds in H.
Qed.

Lemma spec_blocks_header_write (h : BasicBlock) (lt pe : option BasicBlock)
    (slot : option Value) (bbs : list BasicBlock) (v : Value) :
  h ∈ bbs ->
  head (omap load_address (F h)) = Some v ->
  v ∈ (spec_blocks F (Some h) lt pe slot false bbs).1.
Proof.
  intros Hin Hv. revert slot. induction bbs as [| BB bbs IH]; intros slot.
  - by apply elem_of_nil in Hin.
  - cbn [spec_blocks]. case_bool_decide as Hh.
    + injection Hh as ->. unfold spec_header.
      destruct (omap load_address (F h)) as [| a loads]; [done |].
      injection Hv as ->. simpl.
      destruct (spec_blocks _ _ _ _ _ _ _) as [W R]. simpl. by left.
    + apply elem_of_cons in Hin as [-> | Hin]; [done |].
      case_bool_decide.
      * destruct (spec_body slot (F BB)) as [s' [w r]].
        specialize (IH Hin s'). destruct (spec_blocks _ _ _ _ _ _ _) as [W R]. simpl in *.
        apply elem_of_app. by right.
      * by apply IH.
Qed.

(** The counter of a built candidate is in its write-set, when the
    header is one of the loop's blocks: it is the first load of the
    header, which the collector classifies as a write. *)
Lemma built_counter_is_written (jv : Value) (jop : BinaryOps) (c0 : FusionCandidate)
    (l : Loop) (c : FusionCandidate) (h : BasicBlock) (v : Value) :
  create_fusion_candidate F jv jop c0 l variables = inr c ->
  getHeader l = Some h ->
  h ∈ getBlocks l ->
  induction_variable (induction c) = Some v ->
  v ∈ writes c.
Proof.
  intros H Hh Hin Hiv.
  pose proof (create_fusion_candidate_inr F jv jop c0 l variables c H)
    as (p & h' & lt & pe & e & ind & w & r & v' & Hp & Hh' & Hlt & Hpe & He & _ & Hc & Hiv'
        & Hfirst & _).
  assert (h' = h) as -> by congruence.
  assert (v' = v) as -> by (rewrite Hc in Hiv; simpl in Hiv; congruence).
  unfold create_fusion_candidate in H.
  destruct (check_blocks F (getBlocks l)); [done |].
  rewrite Hp, He, Hh, Hlt, Hpe in H. cbn [set_preheader_exit preheader exit non_null negb orb
    set_header_latch_pre_exit header latch pre_exit] in H.
  destruct (isAnnotatedParallel l); [done |].
  rewrite get_loop_memops_footprint in H.
  apply get_loop_induction_inr in H as (ind' & v'' & Hc' & _). rewrite Hc'.
  unfold spec_footprint. cbn [writes set_induction extend set_loop header latch pre_exit loop].
  apply elem_of_app. right. by apply spec_blocks_header_write.
Qed.

(** Two loops that count with the same variable are never fused: the
    counter is in both write-sets, so the candidates are dependent. *)
Theorem same_counter_never_fused (jv : Value) (jop : BinaryOps) (c0 c0' : FusionCandidate)
    (l1 l2 : Loop) (c1 c2 : FusionCandidate) (h1 h2 : BasicBlock) :
  create_fusion_candidate F jv jop c0 l1 variables = inr c1 ->
  create_fusion_candidate F jv jop c0' l2 variables = inr c2 ->
  getHeader l1 = Some h1 -> h1 ∈ getBlocks l1 ->
  getHeader l2 = Some h2 -> h2 ∈ getBlocks l2 ->
  induction_variable (induction c1) = induction_variable (induction c2) ->
  dependent c1 c2 = true /\ can_be_fused c1 c2 = false.
Proof.
  intros H1 H2 Hh1 Hin1 Hh2 Hin2 Hsame.
  pose proof (create_fusion_candidate_inr F jv jop c0 l1 variables c1 H1)
    as (p & h & lt & pe & e & ind & w & r & v & _ & _ & _ & _ & _ & _ & Hc & Hiv & _).
  assert (Hiv1 : induction_variable (induction c1) = Some v) by (by rewrite Hc).
  assert (Hw1 : v ∈ writes c1) by (by eapply built_counter_is_written).
  assert (Hw2 : v ∈ writes c2).
  { eapply built_counter_is_written; [exact H2 | exact Hh2 | exact Hin2 | congruence]. }
  assert (Hdep : dependent c1 c2 = true) by (apply dependent_true_iff; left; eauto).
  split; [done | by apply can_be_fused_dependent].
Qed.

End BuilderMore.

Section VariableMap.

Variable F : Body.

Lemma map_variables_instrs_other (l : list Instruction) (m : VarMap) (k : Value) :
  (forall self p vol, LoadInst self p vol ∈ l -> VInst self <> k) ->
  fold_left map_variables_instr l m !! k = m !! k.
Proof.
  revert m. induction l as [| instr l IH]; intros m Hno; [done |].
  simpl. rewrite IH by (intros self p vol Hin; eapply Hno; by right).
  destruct instr; try done. simpl.
  apply lookup_insert_ne. eapply Hno. by left.
Qed.

Lemma map_variables_instrs_load (l : list Instruction) (m : VarMap) (self : positive)
    (p : Value) :
  (forall p' vol', LoadInst self p' vol' ∈ l -> p' = p) ->
  (m !! VInst self = Some p \/ exists vol, LoadInst self p vol ∈ l) ->
  fold_left map_variables_instr l m !! VInst self = Some p.
Proof.
  revert m. induction l as [| instr l IH]; intros m Huniq Hhas.
  - destruct Hhas as [H | [vol H]]; [done | by apply elem_of_nil in H].
  - simpl. apply IH; [intros p' vol' Hin; eapply Huniq; by right |].
    destruct Hhas as [Hm | [vol Hin]].
    + left. destruct instr; try done. simpl.
      destruct (decide (self0 = self)) as [-> | Hne].
      * rewrite lookup_insert_eq. f_equal. eapply Huniq. by left.
      * rewrite lookup_insert_ne by congruence. done.
    + apply elem_of_cons in Hin as [<- | Hin]; [| right; eauto].
      left. simpl. by rewrite lookup_insert_eq.
Qed.

(** [map_variables] maps the result of a load of the given blocks to the
    address it loads from, when every load with that result loads from
    that address (as in a procedure, where a result is defined once);
    a key that is the result of no load of these blocks keeps what the
    map held for it. *)
Theorem map_variables_lookup (blocks : list BasicBlock) (m : VarMap) :
  (forall self p,
      (forall BB p' vol', BB ∈ blocks -> LoadInst self p' vol' ∈ F BB -> p' = p) ->
      (exists BB vol, BB ∈ blocks /\ LoadInst self p vol ∈ F BB) ->
      map_variables F blocks m !! VInst self = Some p)
  /\ (forall k,
        (forall BB self p vol, BB ∈ blocks -> LoadInst self p vol ∈ F BB -> VInst self <> k) ->
        map_variables F blocks m !! k = m !! k).
Proof.
  split.
  - intros self p Huniq (BB & vol & Hb & Hin).
    assert (Hgen : forall m0,
               (m0 !! VInst self = Some p \/
                exists BB vol, BB ∈ blocks /\ LoadInst self p vol ∈ F BB) ->
               map_variables F blocks m0 !! VInst self = Some p).
    { clear BB vol Hb Hin. unfold map_variables.
      induction blocks as [| B bs IH]; intros m0 Hhas.
      - destruct Hhas as [H | (BB & vol & Hb & _)]; [done | by apply elem_of_nil in Hb].
      - simpl. apply IH; [intros BB p' vol' Hb; apply Huniq; by right |].
        destruct Hhas as [Hm | (BB & vol & Hb & Hin)].
        + left. apply map_variables_instrs_load; [| by left].
          intros p' vol'. apply Huniq. by left.
        + apply elem_of_cons in Hb as [-> | Hb]; [| right; eauto].
          left. apply map_variables_instrs_load; [| right; eauto].
          intros p' vol'. apply Huniq. by left. }
    apply Hgen. right. eauto.
  - intros k Hno. unfold map_variables. revert m.
    induction blocks as [| B bs IH]; intros m; [done |].
    simpl. rewrite IH by (intros BB self p vol Hb; apply Hno; by right).
    apply map_variables_instrs_other. intros self p vol. apply Hno. by left.
Qed.

End VariableMap.

(** * Further properties of the driver *)

Section DriverMore.

Context {IR : Type} (llvm : LLVM IR).
Variable junk : Indeterminate.
Variable variables : VarMap.

Lemma visit_loop_without_collector (l : LoopId) (coll : FusionCandidate) (s : IR) :
  final_state (visit_loop llvm junk variables l (false, coll) s) = s
  /\ calls (events (visit_loop llvm junk variables l (false, coll) s)) = [].
Proof.
  destruct (build_at llvm junk variables s l) as [d | current] eqn:Hb.
  - by rewrite (visit_loop_failed llvm junk variables l (false, coll) s d Hb).
  - by destruct (visit_loop_collected llvm junk variables l false coll s current Hb eq_refl)
      as (_ & Hs & Hc & _).
Qed.

Lemma single_file_quiet (n : LoopNest) :
  single_file n = true ->
  forall coll s,
    final_state (visit_nest llvm junk variables n (false, coll) s) = s
    /\ calls (events (visit_nest llvm junk variables n (false, coll) s)) = [].
Proof.
  induction n as [l subloops IH] using LoopNest_forall_ind. intros Hsf coll s.
  rewrite visit_nest_unfold, final_state_bind, events_bind, calls_app.
  destruct subloops as [| inner [| second rest]]; [| | done].
  - cbn [visit_siblings]. apply visit_loop_without_collector.
  - apply Forall_cons in IH as [IHinner _]. cbn [single_file] in Hsf.
    destruct (IHinner Hsf (declared (junk_candidate junk)) s) as [Hs Hc].
    cbn [visit_siblings]. rewrite final_state_bind, events_bind, calls_app.
    cbn [ret final_state events returned fst snd calls omap app].
    rewrite Hs, Hc. rewrite app_nil_r. destruct (visit_loop_without_collector l coll s).
    done.
Qed.

(** A nest in which no loop has a sibling is left as it is: the pass
    makes no call and the state of the procedure is the one it
    started from, whatever candidates are built. *)
Theorem single_file_nest_is_untouched (n : LoopNest) (s : IR) :
  single_file n = true ->
  final_state (fuse_same_depth_loops_recursive llvm junk variables [n] s) = s
  /\ calls (events (fuse_same_depth_loops_recursive llvm junk variables [n] s)) = [].
Proof.
  intros Hsf. unfold fuse_same_depth_loops_recursive.
  rewrite final_state_bind, events_bind, calls_app. cbn [visit_siblings].
  rewrite final_state_bind, events_bind, calls_app.
  destruct (single_file_quiet n Hsf (declared (junk_candidate junk)) s) as [Hs Hc].
  cbn [ret final_state events returned fst snd calls omap app].
  by rewrite Hs, Hc.
Qed.

Lemma refused_siblings (loops : list LoopNest) (s : IR) :
  Forall (fun n => forall st,
            Forall (fun l => succeeded (build_at llvm junk variables s l) = false)
                   (postorder n) ->
            visit_nest llvm junk variables n st s
            = (st, s, flat_map (refusal llvm junk variables s) (postorder n))) loops ->
  forall st,
    Forall (fun l => succeeded (build_at llvm junk variables s l) = false)
           (flat_map postorder loops) ->
    visit_siblings llvm junk variables loops st s
    = (st, s, flat_map (refusal llvm junk variables s) (flat_map postorder loops)).
Proof.
  induction 1 as [| n rest Hn _ IH]; intros st Hall; [done |].
  cbn [flat_map] in Hall. apply Forall_app in Hall as [Hall1 Hall2].
  cbn [visit_siblings flat_map]. unfold bind. rewrite (Hn st Hall1), (IH st Hall2).
  by rewrite flat_map_app.
Qed.

Lemma refused_nest (n : LoopNest) (s : IR) :
  forall st,
    Forall (fun l => succeeded (build_at llvm junk variables s l) = false) (postorder n) ->
    visit_nest llvm junk variables n st s
    = (st, s, flat_map (refusal llvm junk variables s) (postorder n)).
Proof.
  induction n as [l subloops IH] using LoopNest_forall_ind. intros st Hall.
  cbn [postorder] in Hall. apply Forall_app in Hall as [Hsub Hl].
  apply Forall_cons in Hl as [Hl _].
  rewrite visit_nest_unfold. unfold bind.
  rewrite (refused_siblings subloops s IH _ Hsub).
  destruct (build_at llvm junk variables s l) as [d |] eqn:Hb; [| by simpl in Hl].
  rewrite (visit_loop_failed llvm junk variables l st s d Hb).
  cbn [postorder]. rewrite flat_map_app. cbn [flat_map]. rewrite app_nil_r.
  unfold refusal at 3. by rewrite Hb.
Qed.

(** When no loop of the nest gives a candidate, the pass changes
    nothing: no call is made, the state is the one it started from, and
    what is left behind is, loop after loop, children first, the mark of
    the loop and the one line of its failure. *)
Theorem refused_loops_leave_no_trace (loops : list LoopNest) (s : IR) :
  Forall (fun l => succeeded (build_at llvm junk variables s l) = false)
         (flat_map postorder loops) ->
  fuse_same_depth_loops_recursive llvm junk variables loops s
  = (tt, s, flat_map (refusal llvm junk variables s) (flat_map postorder loops))
  /\ calls (events (fuse_same_depth_loops_recursive llvm junk variables loops s)) = [].
Proof.
  intros Hall.
  assert (Hrun : fuse_same_depth_loops_recursive llvm junk variables loops s
                 = (tt, s, flat_map (refusal llvm junk variables s) (flat_map postorder loops))).
  { unfold fuse_same_depth_loops_recursive, bind.
    rewrite (refused_siblings loops s); [| | done].
    - cbn [ret]. by rewrite app_nil_r.
    - apply Forall_forall. intros n _ st. apply refused_nest. }
  split; [done |]. rewrite Hrun. cbn [events snd].
  clear Hrun. induction (flat_map postorder loops) as [| l ls IH]; [done |].
  apply Forall_cons in Hall as [Hl Hls]. cbn [flat_map]. rewrite calls_app, (IH Hls).
  unfold refusal. by destruct (build_at llvm junk variables s l).
Qed.

End DriverMore.
